(** * LEAP filter sequence (leap_filter_sequence.py)

    A shallow embedding of the denoising filters (regularizers) of LEAP and
    of the [filterSequence] class that aggregates them.

    Numbers.  Voxel values and scalar parameters are exact rationals ([Q]);
    a volume is the flat list of its voxels (every operation of the module
    is either elementwise, a reduction, or a kernel of the engine, so the
    3D shape plays no role).  Arithmetic is exact: the rounding of float32
    is not modelled.  A value that is not finite comes from
    the powers only; the engine says which powers are finite (a zero raised
    to a negative power never is, and an engine may bound the magnitudes,
    as [float32_range_engine] does), and a power that is not is the outcome
    [Raise NotFinite].

    Arrays.  A numpy array handed in by the caller is a reference into a
    heap; writing [f[:] = ...], [f -= ...] or running an engine kernel on it
    updates the heap cell, and every alias sees the update.  Arrays built by
    a numpy expression or by [copyData] inside one method call are fresh and
    private to that call: they are let-bound values, an in-place update of
    such a local being a rebinding.  The one place where a fresh array is
    handed to an in-place kernel and then dropped ([TV.apply]) allocates it
    in the heap, so that the effect of the kernel stays visible.  A prior
    [f_0] is held by a filter as the contents it had at construction: the
    caller does not write to it afterwards and does not hand the same array
    in as the volume. *)

From Stdlib Require Import ZArith QArith Qabs Qminmax Qpower Lqa Lia String Sorted.
From stdpp Require Import base option list.

Local Open Scope Q_scope.

(** ** Python outcomes

    [NameError], [IndexError] and [TypeError] are the exceptions of Python.
    [NotFinite] marks a computation whose value holds an [inf] or a [NaN]
    (Python raises nothing there); [InvalidRef] is a reference to no array,
    which no Python program can form. *)

Inductive exn : Type :=
| NameError (name : string)
| IndexError
| TypeError
| NotFinite
| InvalidRef.

Inductive result (A : Type) : Type :=
| Ok (a : A)
| Raise (e : exn).
Arguments Ok {A} a.
Arguments Raise {A} e.

Definition rbind {A B} (r : result A) (k : A -> result B) : result B :=
  match r with
  | Ok a => k a
  | Raise e => Raise e
  end.

Notation "x <-- r ; k" := (rbind r (fun x => k))
  (at level 100, r at next level, right associativity).

(** A method that returns [None] where a number or an array is needed makes
    the caller's arithmetic fail with a [TypeError]. *)
Definition expect {A} (o : option A) : result A :=
  match o with
  | Some a => Ok a
  | None => Raise TypeError
  end.

Fixpoint mapM {A B} (f : A -> result B) (l : list A) : result (list B) :=
  match l with
  | [] => Ok []
  | x :: l' => y <-- f x ; ys <-- mapM f l' ; Ok (y :: ys)
  end.

(** ** Volumes and the heap of caller-owned arrays *)

Abbreviation volume := (list Q).
Abbreviation ref := nat.
Abbreviation heap := (list (list Q)).

Definition M (A : Type) : Type := heap -> result (A * heap).

Definition ret {A} (a : A) : M A := fun h => Ok (a, h).

Definition bind {A B} (m : M A) (k : A -> M B) : M B :=
  fun h => match m h with
           | Ok (a, h') => k a h'
           | Raise e => Raise e
           end.

Notation "x <- m ;; k" := (bind m (fun x => k))
  (at level 100, m at next level, right associativity).
Notation "m ;;; k" := (bind m (fun _ => k))
  (at level 100, right associativity).

Definition lift {A} (r : result A) : M A :=
  fun h => match r with
           | Ok a => Ok (a, h)
           | Raise e => Raise e
           end.

Definition read (r : ref) : M volume :=
  fun h => match h !! r with
           | Some v => Ok (v, h)
           | None => Raise InvalidRef
           end.

Definition write (r : ref) (v : volume) : M unit :=
  fun h => match h !! r with
           | Some _ => Ok (tt, <[r := v]> h)
           | None => Raise InvalidRef
           end.

(** A numpy expression whose value is passed on by reference. *)
Definition alloc (v : volume) : M ref :=
  fun h => Ok (length h, h ++ [v]).

(** ** Elementwise arithmetic of arrays

    [a + b], [a - b] and [a * b] of numpy on two arrays of one shape; every
    use below is on such a pair (a volume and its prior, a volume and an
    array computed from it).  On two shapes numpy broadcasts or raises,
    which is not modelled: there the lists are cut to the shorter one. *)

Definition Qgt_bool (a b : Q) : bool := negb (Qle_bool a b).

Definition vadd (a b : volume) : volume := zip_with Qplus a b.
Definition vsub (a b : volume) : volume := zip_with Qminus a b.
Definition vmul (a b : volume) : volume := zip_with Qmult a b.
(** [c * a] with a scalar on the left, [a * c] with a scalar on the right *)
Definition vscale (c : Q) (a : volume) : volume := map (Qmult c) a.
Definition vscale_r (a : volume) (c : Q) : volume := map (fun x => x * c) a.
(** [a[:] = c] *)
Definition vfill (a : volume) (c : Q) : volume := map (fun _ => c) a.
(** [a ** 2], the exponent being the integer literal *)
Definition vsquare (a : volume) : volume := map (fun x => x * x) a.

Definition Qsign (x : Q) : Q :=
  match Qcompare x 0 with
  | Lt => -1
  | Eq => 0
  | Gt => 1
  end.

(** ** The numeric engine: class [tomographicModels] of leapctype

    leapctype is a module of its own (the bindings of the C/CUDA library).
    The filter kernels and the power with a real exponent are parameters of
    the development, the fields of the record below; the plain array
    primitives are modelled from the capability contract of the engine. *)

Module tomographicModels.

Record t : Type := {
  (** [x ** e] for a real exponent; [None] when the result is not finite *)
  power : Q -> Q -> option Q;
  BlurFilter_kernel : volume -> Q -> volume;
  BilateralFilter_kernel : volume -> Q -> Q -> Q -> volume;
  MedianFilter_kernel : volume -> Q -> Z -> volume;
  AzimuthalBlur_kernel : volume -> Q -> volume;
  diffuse_kernel : volume -> Q -> Z -> Q -> volume;
  TVcost : volume -> Q -> Q -> Q -> Q;
  TVgradient : volume -> Q -> Q -> Q -> volume;
  TVquadForm : volume -> volume -> Q -> Q -> Q -> Q
}.

(** Modelled from the spec: the reduction [sum] of the engine. *)
Definition sum (a : volume) : Q := fold_left Qplus a 0.

(** Modelled from the spec: elementwise [abs] of the engine. *)
Definition abs (a : volume) : volume := map Qabs a.

(** Modelled from the spec: elementwise [sign] of the engine. *)
Definition sign (a : volume) : volume := map Qsign a.

(** Modelled from the spec: the weighted inner product of the engine,
    [innerProd(a, d, d) = sum of a*d*d]. *)
Definition innerProd (a b c : volume) : Q := sum (vmul (vmul a b) c).

(** Modelled from the spec: elementwise [minimum] of the engine. *)
Definition minimum (a b : volume) : volume := zip_with Qmin a b.

(** Modelled from the spec: [copyData], a fresh array with the argument's
    shape and values. *)
Definition copyData (a : volume) : volume := a.

(** [a ** e], elementwise, for a real exponent [e] *)
Definition pow (leapct : t) (a : volume) (e : Q) : result volume :=
  mapM (fun x => match power leapct x e with
                 | Some y => Ok y
                 | None => Raise NotFinite
                 end) a.

(** The kernels work in place on the array they are given and return that
    same array: the module runs [AzimuthalBlur] on a copy and then reads the
    copy, and [filterSequence.apply] drops what the filters return. *)
Definition inplace (k : volume -> volume) (f : ref) : M ref :=
  v <- read f ;; write f (k v) ;;; ret f.

Definition BlurFilter (leapct : t) (f : ref) (FWHM : Q) : M ref :=
  inplace (fun v => BlurFilter_kernel leapct v FWHM) f.

Definition BilateralFilter (leapct : t) (f : ref) (spatialFWHM intensityFWHM scale : Q) : M ref :=
  inplace (fun v => BilateralFilter_kernel leapct v spatialFWHM intensityFWHM scale) f.

Definition MedianFilter (leapct : t) (f : ref) (threshold : Q) (windowSize : Z) : M ref :=
  inplace (fun v => MedianFilter_kernel leapct v threshold windowSize) f.

Definition diffuse (leapct : t) (f : ref) (delta : Q) (numIter : Z) (p : Q) : M ref :=
  inplace (fun v => diffuse_kernel leapct v delta numIter p) f.

(** [AzimuthalBlur] run on a local array [Bf]: the new contents of [Bf] *)
Definition AzimuthalBlur (leapct : t) (Bf : volume) (FWHM : Q) : volume :=
  AzimuthalBlur_kernel leapct Bf FWHM.

End tomographicModels.

(** ** class denoisingFilter *)

Module denoisingFilter.

(** A filter object as its callers see it: the attributes set by the
    constructors and the methods after resolution.  [apply_override] is
    [None] for a class that inherits [apply] from [denoisingFilter]. *)
Record t : Type := {
  leapct : tomographicModels.t;
  weight : Q;
  isDifferentiable : bool;
  call_cost : volume -> result (option Q);
  call_gradient : volume -> result (option volume);
  call_quadForm : volume -> volume -> result (option Q);
  apply_override : option (ref -> M (option ref))
}.

(** The bodies [pass] of the parent class return [None]. *)
Definition cost (f : volume) : result (option Q) := Ok None.
Definition gradient (f : volume) : result (option volume) := Ok None.
Definition quadForm (f d : volume) : result (option Q) := Ok None.

(** [stepSize = num / denom] *)
Definition stepSize (num denom : Q) : Q := num / denom.

Definition apply (self : t) (f : ref) : M (option ref) :=
  if isDifferentiable self then
    fv <- read f ;;
    d <- lift (r <-- call_gradient self fv ; expect r) ;;
    let num := tomographicModels.sum (vsquare d) in
    denom <- lift (r <-- call_quadForm self fv d ; expect r) ;;
    if Qle_bool denom (1 # 10000000000000000) then
      ret (Some f)
    else
      write f (vsub fv (vscale (stepSize num denom) d)) ;;;
      ret (Some f)
  else
    ret None.

(** [self.apply(f)]: the override of the class if it has one, the parent's
    [apply] otherwise. *)
Definition call_apply (self : t) (f : ref) : M (option ref) :=
  match apply_override self with
  | Some m => m f
  | None => apply self f
  end.

(** [__init__] of the parent class *)
Definition init (leapct : tomographicModels.t) : t :=
  {| leapct := leapct; weight := 1; isDifferentiable := false;
     call_cost := cost; call_gradient := gradient; call_quadForm := quadForm;
     apply_override := None |}.

End denoisingFilter.

(** Python's [max(a, b)] and [min(a, b)] of two numbers: the first argument
    is kept unless the second is strictly larger (smaller). *)
Definition py_max (a b : Q) : Q := if Qgt_bool b a then b else a.
Definition py_min (a b : Q) : Q := if Qgt_bool a b then b else a.

(** ** class BlurFilter *)

Module BlurFilter.

Record t : Type := {
  leapct : tomographicModels.t;
  FWHM : Q;
  isDifferentiable : bool
}.

Definition init (leapct : tomographicModels.t) (FWHM : Q) : t :=
  {| leapct := leapct; FWHM := FWHM; isDifferentiable := false |}.

Definition apply (self : t) (f : ref) : M (option ref) :=
  r <- tomographicModels.BlurFilter (leapct self) f (FWHM self) ;; ret (Some r).

Definition object (self : t) : denoisingFilter.t :=
  {| denoisingFilter.leapct := leapct self;
     denoisingFilter.weight := 1;
     denoisingFilter.isDifferentiable := isDifferentiable self;
     denoisingFilter.call_cost := denoisingFilter.cost;
     denoisingFilter.call_gradient := denoisingFilter.gradient;
     denoisingFilter.call_quadForm := denoisingFilter.quadForm;
     denoisingFilter.apply_override := Some (apply self) |}.

End BlurFilter.

(** ** class BilateralFilter *)

Module BilateralFilter.

Record t : Type := {
  leapct : tomographicModels.t;
  spatialFWHM : Q;
  intensityFWHM : Q;
  scale : Q;
  isDifferentiable : bool
}.

Definition init (leapct : tomographicModels.t) (spatialFWHM intensityFWHM scale : Q) : t :=
  {| leapct := leapct; spatialFWHM := spatialFWHM; intensityFWHM := intensityFWHM;
     scale := scale; isDifferentiable := false |}.

Definition apply (self : t) (f : ref) : M (option ref) :=
  r <- tomographicModels.BilateralFilter (leapct self) f
         (spatialFWHM self) (intensityFWHM self) (scale self) ;;
  ret (Some r).

Definition object (self : t) : denoisingFilter.t :=
  {| denoisingFilter.leapct := leapct self;
     denoisingFilter.weight := 1;
     denoisingFilter.isDifferentiable := isDifferentiable self;
     denoisingFilter.call_cost := denoisingFilter.cost;
     denoisingFilter.call_gradient := denoisingFilter.gradient;
     denoisingFilter.call_quadForm := denoisingFilter.quadForm;
     denoisingFilter.apply_override := Some (apply self) |}.

End BilateralFilter.

(** ** class MedianFilter *)

Module MedianFilter.

Record t : Type := {
  leapct : tomographicModels.t;
  threshold : Q;
  windowSize : Z;
  isDifferentiable : bool
}.

Definition init (leapct : tomographicModels.t) (threshold : Q) (windowSize : Z) : t :=
  {| leapct := leapct; threshold := threshold; windowSize := windowSize;
     isDifferentiable := false |}.

Definition apply (self : t) (f : ref) : M (option ref) :=
  r <- tomographicModels.MedianFilter (leapct self) f (threshold self) (windowSize self) ;;
  ret (Some r).

Definition object (self : t) : denoisingFilter.t :=
  {| denoisingFilter.leapct := leapct self;
     denoisingFilter.weight := 1;
     denoisingFilter.isDifferentiable := isDifferentiable self;
     denoisingFilter.call_cost := denoisingFilter.cost;
     denoisingFilter.call_gradient := denoisingFilter.gradient;
     denoisingFilter.call_quadForm := denoisingFilter.quadForm;
     denoisingFilter.apply_override := Some (apply self) |}.

End MedianFilter.

(** ** class TV

    The prior [f_0] of [TV] and [LpNorm] is written by no method of the
    module; it is carried as the value it has, an array distinct from the
    volume that is filtered. *)

Module TV.

Record t : Type := {
  leapct : tomographicModels.t;
  delta : Q;
  p : Q;
  weight : Q;
  isDifferentiable : bool;
  f_0 : option volume
}.

Definition init (leapct : tomographicModels.t) (delta p weight : Q) (f_0 : option volume) : t :=
  {| leapct := leapct; delta := delta; p := py_max (1 # 100) p; weight := weight;
     isDifferentiable := true; f_0 := f_0 |}.

Definition cost (self : t) (f : volume) : result (option Q) :=
  match f_0 self with
  | Some f0 =>
      Ok (Some (tomographicModels.TVcost (leapct self) (vsub f f0) (delta self) (weight self) (p self)))
  | None =>
      Ok (Some (tomographicModels.TVcost (leapct self) f (delta self) (weight self) (p self)))
  end.

Definition gradient (self : t) (f : volume) : result (option volume) :=
  match f_0 self with
  | Some f0 =>
      Ok (Some (tomographicModels.TVgradient (leapct self) (vsub f f0) (delta self) (weight self) (p self)))
  | None =>
      Ok (Some (tomographicModels.TVgradient (leapct self) f (delta self) (weight self) (p self)))
  end.

Definition quadForm (self : t) (f d : volume) : result (option Q) :=
  match f_0 self with
  | Some f0 =>
      Ok (Some (tomographicModels.TVquadForm (leapct self) (vsub f f0) d (delta self) (weight self) (p self)))
  | None =>
      Ok (Some (tomographicModels.TVquadForm (leapct self) f d (delta self) (weight self) (p self)))
  end.

(** With a prior, [diffuse] is handed the fresh array [f - self.f_0] and
    what it returns is not bound to anything; then [f[:] += self.f_0[:]]. *)
Definition apply (self : t) (f : ref) : M (option ref) :=
  match f_0 self with
  | Some f0 =>
      fv <- read f ;;
      tmp <- alloc (vsub fv f0) ;;
      tomographicModels.diffuse (leapct self) tmp (delta self) 1 (p self) ;;;
      fv <- read f ;;
      write f (vadd fv f0) ;;;
      ret (Some f)
  | None =>
      r <- tomographicModels.diffuse (leapct self) f (delta self) 1 (p self) ;;
      ret (Some r)
  end.

Definition object (self : t) : denoisingFilter.t :=
  {| denoisingFilter.leapct := leapct self;
     denoisingFilter.weight := weight self;
     denoisingFilter.isDifferentiable := isDifferentiable self;
     denoisingFilter.call_cost := cost self;
     denoisingFilter.call_gradient := gradient self;
     denoisingFilter.call_quadForm := quadForm self;
     denoisingFilter.apply_override := Some (apply self) |}.

End TV.

(** ** Boolean masks: [ind = a == 0.0] and [a[ind] = c] *)

Definition eq_zero (a : volume) : list bool := map (fun x => Qeq_bool x 0) a.

Definition mask_set (a : volume) (ind : list bool) (c : Q) : volume :=
  zip_with (fun x (b : bool) => if b then c else x) a ind.

(** ** class LpNorm *)

Module LpNorm.

Record t : Type := {
  leapct : tomographicModels.t;
  p : Q;
  weight : Q;
  f_0 : option volume;
  isDifferentiable : bool
}.

Definition init (leapct : tomographicModels.t) (p weight : Q) (f_0 : option volume) : t :=
  {| leapct := leapct; p := py_max 0 p; weight := weight; f_0 := f_0;
     isDifferentiable := true |}.

Definition cost (self : t) (f : volume) : result (option Q) :=
  match f_0 self with
  | Some f0 =>
      t <-- tomographicModels.pow (leapct self) (tomographicModels.abs (vsub f f0)) (p self) ;
      Ok (Some (weight self * tomographicModels.sum t))
  | None =>
      t <-- tomographicModels.pow (leapct self) (tomographicModels.abs f) (p self) ;
      Ok (Some (weight self * tomographicModels.sum t))
  end.

Definition gradient (self : t) (f : volume) : result (option volume) :=
  let Df := tomographicModels.copyData f in
  let Df := match f_0 self with
            | Some f0 => vsub Df f0
            | None => Df
            end in
  t <-- tomographicModels.pow (leapct self) (tomographicModels.abs Df) (p self - 1) ;
  Ok (Some (vmul (vscale (weight self * p self) (tomographicModels.sign Df)) t)).

Definition quadForm (self : t) (f d : volume) : result (option Q) :=
  match f_0 self with
  | Some f0 =>
      let f_copy := tomographicModels.copyData f in
      let f_copy := vsub f_copy f0 in
      let ind := eq_zero f_copy in
      let f_copy := mask_set f_copy ind 1 in
      f_copy <-- tomographicModels.pow (leapct self) (tomographicModels.abs f_copy) (p self - 2) ;
      let f_copy := mask_set f_copy ind 0 in
      Ok (Some (weight self * p self * tomographicModels.innerProd f_copy d d))
  | None =>
      let ind := eq_zero f in
      let f_copy := tomographicModels.copyData f in
      let f_copy := mask_set f_copy ind 1 in
      f_copy <-- tomographicModels.pow (leapct self) (tomographicModels.abs f_copy) (p self - 2) ;
      let f_copy := mask_set f_copy ind 0 in
      Ok (Some (weight self * p self * tomographicModels.innerProd f_copy d d))
  end.

(** The object that [super()] hands to the parent's [apply]. *)
Definition super (self : t) : denoisingFilter.t :=
  {| denoisingFilter.leapct := leapct self;
     denoisingFilter.weight := weight self;
     denoisingFilter.isDifferentiable := isDifferentiable self;
     denoisingFilter.call_cost := cost self;
     denoisingFilter.call_gradient := gradient self;
     denoisingFilter.call_quadForm := quadForm self;
     denoisingFilter.apply_override := None |}.

Definition apply (self : t) (f : ref) : M (option ref) :=
  match f_0 self with
  | Some f0 =>
      fv <- read f ;;
      write f (vsub fv f0) ;;;
      r <- denoisingFilter.apply (super self) f ;;
      f <- lift (expect r) ;;
      fv <- read f ;;
      write f (vadd fv f0) ;;;
      ret (Some f)
  | None => denoisingFilter.apply (super self) f
  end.

Definition object (self : t) : denoisingFilter.t :=
  {| denoisingFilter.leapct := leapct self;
     denoisingFilter.weight := weight self;
     denoisingFilter.isDifferentiable := isDifferentiable self;
     denoisingFilter.call_cost := cost self;
     denoisingFilter.call_gradient := gradient self;
     denoisingFilter.call_quadForm := quadForm self;
     denoisingFilter.apply_override := Some (apply self) |}.

End LpNorm.

(** ** numpy helpers of [histogramSparsity]

    Modelled from numpy's documentation: [np.sort] returns the values in
    ascending order, [np.unique] the sorted values with every run of equal
    values reduced to its first element. *)

Fixpoint insert_sorted (x : Q) (l : list Q) : list Q :=
  match l with
  | [] => [x]
  | y :: l' => if Qle_bool x y then x :: l else y :: insert_sorted x l'
  end.

Definition np_sort (l : list Q) : list Q := foldr insert_sorted [] l.

Fixpoint drop_repeats (prev : Q) (l : list Q) : list Q :=
  match l with
  | [] => []
  | y :: l' => if Qeq_bool prev y then drop_repeats prev l' else y :: drop_repeats y l'
  end.

Definition np_unique (l : list Q) : list Q :=
  match np_sort l with
  | [] => []
  | x :: l' => x :: drop_repeats x l'
  end.

(** [a[i]] of a one-dimensional array, for [i >= 0] *)
Definition index (a : list Q) (i : nat) : result Q :=
  match a !! i with
  | Some x => Ok x
  | None => Raise IndexError
  end.

(** [a - c] with a scalar [c] *)
Definition vshift (a : volume) (c : Q) : volume := map (fun x => x - c) a.

(** ** class histogramSparsity *)

Module histogramSparsity.

Record t : Type := {
  leapct : tomographicModels.t;
  weight : Q;
  isDifferentiable : bool;
  mus : list Q;
  GemanParam : Q
}.

(** [for l in range(1, self.mus.size): minDist = min(minDist, ...)] *)
Fixpoint gap_loop (self_mus : list Q) (ls : list nat) (minDist : Q) : result Q :=
  match ls with
  | [] => Ok minDist
  | l :: ls' =>
      a <-- index self_mus l ;
      b <-- index self_mus (l - 1) ;
      gap_loop self_mus ls' (py_min minDist (Qabs (a - b)))
  end.

(** [__init__], for [mus] a list of numbers.  The test [mus.size > 1] reads
    the local [mus] (the argument, with 0.0 appended if it was absent), not
    [self.mus]. *)
Definition init (leapct : tomographicModels.t) (mus : list Q) (weight : Q) : result t :=
  let mus := if existsb (fun m => Qeq_bool m 0) mus then mus else mus ++ [0] in
  let self_mus := np_sort (np_unique mus) in
  if (1 <? length mus)%nat then
    m1 <-- index self_mus 1 ;
    m0 <-- index self_mus 0 ;
    let minDist := Qabs (m1 - m0) in
    minDist <-- gap_loop self_mus (seq 1 (length self_mus - 1)) minDist ;
    Ok {| leapct := leapct; weight := weight; isDifferentiable := true;
          mus := self_mus; GemanParam := (1 # 4) * minDist * minDist |}
  else
    Ok {| leapct := leapct; weight := weight; isDifferentiable := true;
          mus := self_mus; GemanParam := 1 # 100000 |}.

Definition Geman0 (self : t) (x : Q) : Q :=
  x * x / (x * x + GemanParam self).

Definition Geman1 (self : t) (x : Q) : Q :=
  2 * GemanParam self * x / ((x * x + GemanParam self) * (x * x + GemanParam self)).

Definition Geman1_over_x (self : t) (x : Q) : Q :=
  2 * GemanParam self / ((x * x + GemanParam self) * (x * x + GemanParam self)).

Definition cost (self : t) (f : volume) : result (option Q) :=
  let curTerm := tomographicModels.copyData f in
  let curTerm := vfill curTerm 1 in
  let curTerm :=
    fold_left (fun curTerm mu => vmul curTerm (map (Geman0 self) (vshift f mu)))
              (mus self) curTerm in
  Ok (Some (weight self * tomographicModels.sum curTerm)).

Definition gradient (self : t) (f : volume) : result (option volume) :=
  let Sp := tomographicModels.copyData f in
  let Sp := vfill Sp 0 in
  let Sp :=
    fold_left (fun Sp l_1 =>
      let curTerm := tomographicModels.copyData f in
      let curTerm := vfill curTerm 1 in
      let curTerm :=
        fold_left (fun curTerm l_2 =>
          if (l_1 =? l_2)%nat then
            vmul curTerm (map (Geman1 self) (vshift f (nth l_1 (mus self) 0)))
          else
            vmul curTerm (map (Geman0 self) (vshift f (nth l_2 (mus self) 0))))
          (seq 0 (length (mus self))) curTerm in
      let Sp := vadd Sp curTerm in
      vscale_r Sp (weight self))
      (seq 0 (length (mus self))) Sp in
  Ok (Some Sp).

(** The loop subtracts the targets from [minDiff], the running array. *)
Definition quadForm (self : t) (f d : volume) : result (option Q) :=
  let minDiff := tomographicModels.copyData f in
  mu0 <-- index (mus self) 0 ;
  let minDiff := tomographicModels.abs (vshift minDiff mu0) in
  let minDiff :=
    fold_left (fun minDiff mu =>
                 tomographicModels.minimum minDiff (tomographicModels.abs (vshift minDiff mu)))
              (tail (mus self)) minDiff in
  Ok (Some (weight self * tomographicModels.innerProd (map (Geman1_over_x self) minDiff) d d)).

Definition object (self : t) : denoisingFilter.t :=
  {| denoisingFilter.leapct := leapct self;
     denoisingFilter.weight := weight self;
     denoisingFilter.isDifferentiable := isDifferentiable self;
     denoisingFilter.call_cost := cost self;
     denoisingFilter.call_gradient := gradient self;
     denoisingFilter.call_quadForm := quadForm self;
     denoisingFilter.apply_override := None |}.

End histogramSparsity.

(** ** class azimuthalFilter *)

Module azimuthalFilter.

Record t : Type := {
  leapct : tomographicModels.t;
  FWHM : Q;
  p : Q;
  weight : Q;
  isDifferentiable : bool
}.

Definition init (leapct : tomographicModels.t) (FWHM p weight : Q) : t :=
  {| leapct := leapct; FWHM := FWHM; p := p; weight := weight; isDifferentiable := true |}.

(** The body of [cost] reads the bare name [p], which is neither a local
    nor an attribute: it is looked up among the globals of the module
    ([np], what [from leapctype import *] brings in, and the classes defined
    here).  [global_p] is the number bound to [p] there, if there is one. *)
Definition cost (global_p : option Q) (self : t) (f : volume) : result (option Q) :=
  let Bf := tomographicModels.copyData f in
  let Bf := tomographicModels.AzimuthalBlur (leapct self) Bf (FWHM self) in
  let Bf := vsub f Bf in
  match global_p with
  | None => Raise (NameError "p")
  | Some p =>
      t <-- tomographicModels.pow (leapct self) (tomographicModels.abs Bf) p ;
      Ok (Some (weight self * tomographicModels.sum t))
  end.

Definition gradient (self : t) (f : volume) : result (option volume) :=
  let Bf := tomographicModels.copyData f in
  let Bf := tomographicModels.AzimuthalBlur (leapct self) Bf (FWHM self) in
  let Bf := vsub f Bf in
  t <-- tomographicModels.pow (leapct self) (tomographicModels.abs Bf) (p self - 1) ;
  let Bf := vmul (vscale (p self) (tomographicModels.sign Bf)) t in
  let BBf := tomographicModels.copyData Bf in
  let BBf := tomographicModels.AzimuthalBlur (leapct self) BBf (FWHM self) in
  let Bf := vsub Bf BBf in
  let Bf := vscale_r Bf (weight self) in
  Ok (Some Bf).

Definition quadForm (self : t) (f d : volume) : result (option Q) :=
  let Bf := tomographicModels.copyData f in
  let Bf := tomographicModels.AzimuthalBlur (leapct self) Bf (FWHM self) in
  let Bf := vsub f Bf in
  let Bd := tomographicModels.copyData d in
  let Bd := tomographicModels.AzimuthalBlur (leapct self) Bd (FWHM self) in
  let Bd := vsub d Bd in
  let ind := eq_zero Bf in
  let Bf := mask_set Bf ind 1 in
  Bf <-- tomographicModels.pow (leapct self) (tomographicModels.abs Bf) (p self - 2) ;
  let Bf := mask_set Bf ind 0 in
  Ok (Some (weight self * p self * tomographicModels.innerProd Bf Bd Bd)).

Definition object (global_p : option Q) (self : t) : denoisingFilter.t :=
  {| denoisingFilter.leapct := leapct self;
     denoisingFilter.weight := weight self;
     denoisingFilter.isDifferentiable := isDifferentiable self;
     denoisingFilter.call_cost := cost global_p self;
     denoisingFilter.call_gradient := gradient self;
     denoisingFilter.call_quadForm := quadForm self;
     denoisingFilter.apply_override := None |}.

End azimuthalFilter.

(** ** class filterSequence *)

Module filterSequence.

Record t : Type := {
  filters : list denoisingFilter.t;
  beta : Q
}.

Definition init (beta : Q) : t := {| filters := []; beta := beta |}.

Definition append (self : t) (newFilter : denoisingFilter.t) : t :=
  {| filters := filters self ++ [newFilter]; beta := beta self |}.

Definition clear (self : t) : t := {| filters := []; beta := beta self |}.

(** The test of the three loops:
    [isDifferentiable == True and weight > 0.0] *)
Definition participates (flt : denoisingFilter.t) : bool :=
  denoisingFilter.isDifferentiable flt && Qgt_bool (denoisingFilter.weight flt) 0.

Fixpoint cost_loop (fs : list denoisingFilter.t) (f : volume) (retVal : Q) : result Q :=
  match fs with
  | [] => Ok retVal
  | flt :: fs' =>
      if participates flt then
        c <-- (r <-- denoisingFilter.call_cost flt f ; expect r) ;
        cost_loop fs' f (retVal + c)
      else cost_loop fs' f retVal
  end.

Definition cost (self : t) (f : volume) : result Q :=
  let retVal := 0 in
  if Qgt_bool (beta self) 0 then
    retVal <-- cost_loop (filters self) f retVal ;
    Ok (retVal * beta self)
  else Ok retVal.

Fixpoint gradient_loop (fs : list denoisingFilter.t) (f : volume) (D : volume) : result volume :=
  match fs with
  | [] => Ok D
  | flt :: fs' =>
      if participates flt then
        g <-- (r <-- denoisingFilter.call_gradient flt f ; expect r) ;
        gradient_loop fs' f (vadd D g)
      else gradient_loop fs' f D
  end.

Definition gradient (self : t) (f : volume) : result volume :=
  match filters self with
  | [] => Raise IndexError
  | _ :: _ =>
      let D := tomographicModels.copyData f in
      let D := vfill D 0 in
      if Qgt_bool (beta self) 0 then
        D <-- gradient_loop (filters self) f D ;
        Ok (vscale_r D (beta self))
      else Ok D
  end.

Fixpoint quadForm_loop (fs : list denoisingFilter.t) (f d : volume) (retVal : Q) : result Q :=
  match fs with
  | [] => Ok retVal
  | flt :: fs' =>
      if participates flt then
        q <-- (r <-- denoisingFilter.call_quadForm flt f d ; expect r) ;
        quadForm_loop fs' f d (retVal + q)
      else quadForm_loop fs' f d retVal
  end.

Definition quadForm (self : t) (f d : volume) : result Q :=
  let retVal := 0 in
  if Qgt_bool (beta self) 0 then
    retVal <-- quadForm_loop (filters self) f d retVal ;
    Ok (retVal * beta self)
  else Ok retVal.

(** What each [self.filters[n].apply(f)] returns is dropped. *)
Fixpoint apply_loop (fs : list denoisingFilter.t) (f : ref) : M unit :=
  match fs with
  | [] => ret tt
  | flt :: fs' => denoisingFilter.call_apply flt f ;;; apply_loop fs' f
  end.

Definition apply (self : t) (f : ref) : M ref :=
  apply_loop (filters self) f ;;; ret f.

End filterSequence.

(** ** An exact engine for evaluation

    An engine on rationals used to run the methods on concrete volumes.  Its
    power knows integral exponents only; its kernels are simple smoothers. *)

Definition Qpow_int (x e : Q) : option Q :=
  let e := Qred e in
  if (Qden e =? 1)%positive then
    if Qeq_bool x 0 && (Qnum e <? 0)%Z then None else Some (Qred (Qpower x (Qnum e)))
  else None.

(** Every voxel is replaced by its mean with its right neighbour. *)
Fixpoint smooth (v : volume) : volume :=
  match v with
  | x :: (y :: _) as v' => (x + y) / 2 :: smooth v'
  | _ => v
  end.

Definition exact_engine : tomographicModels.t :=
  {| tomographicModels.power := Qpow_int;
     tomographicModels.BlurFilter_kernel := fun v _ => smooth v;
     tomographicModels.BilateralFilter_kernel := fun v _ _ _ => smooth v;
     tomographicModels.MedianFilter_kernel := fun v _ _ => smooth v;
     tomographicModels.AzimuthalBlur_kernel := fun v _ => vscale (1 # 2) v;
     tomographicModels.diffuse_kernel := fun v _ _ _ => smooth v;
     tomographicModels.TVcost := fun v _ w _ => w * tomographicModels.sum (tomographicModels.abs v);
     tomographicModels.TVgradient := fun v _ w _ => vscale w (tomographicModels.sign v);
     tomographicModels.TVquadForm := fun v d _ w _ => w * tomographicModels.innerProd (vfill v 1) d d |}.

(** ** Reference sums and sample objects *)

(** The sum of a list of numbers and the elementwise sum of a list of
    volumes with [n] voxels, as the weighted sums of the documentation are
    read. *)
Definition Qsum (l : list Q) : Q := foldr Qplus 0 l.

Definition vsum (n : nat) (gs : list volume) : volume := foldr vadd (repeat 0 n) gs.

(** Equality of volumes up to the representation of their rationals. *)
Definition veq (a b : volume) : Prop := Forall2 Qeq a b.

(** The filters with [isDifferentiable == True and weight > 0.0]. *)
Definition selected (fs : list denoisingFilter.t) : list denoisingFilter.t :=
  List.filter filterSequence.participates fs.

(** The common shape of the loops of [cost], [gradient] and [quadForm]:
    [call] is the method, [add] the [+=] of the accumulator. *)
Fixpoint acc_loop {A : Type} (call : denoisingFilter.t -> result (option A))
    (add : A -> A -> A) (fs : list denoisingFilter.t) (acc : A) : result A :=
  match fs with
  | [] => Ok acc
  | flt :: fs' =>
      if filterSequence.participates flt then
        x <-- (r <-- call flt ; expect r) ;
        acc_loop call add fs' (add acc x)
      else acc_loop call add fs' acc
  end.

Definition sample_LpNorm : LpNorm.t := LpNorm.init exact_engine 2 (1 # 2) None.

Definition sample_sequence (beta : Q) : filterSequence.t :=
  filterSequence.append
    (filterSequence.append
       (filterSequence.append (filterSequence.init beta)
          (BlurFilter.object (BlurFilter.init exact_engine 2)))
       (LpNorm.object sample_LpNorm))
    (TV.object (TV.init exact_engine 0 (12 # 10) 0 None)).

(** ** The documented behaviour, for comparison with the code *)

(** The distance from [x] to the nearest of the targets [mus]. *)
Definition min_abs_distance (mus : list Q) (x : Q) : Q :=
  match mus with
  | [] => 0
  | mu0 :: rest => fold_left (fun m mu => Qmin m (Qabs (x - mu))) rest (Qabs (x - mu0))
  end.

(** [histogramSparsity.quadForm] as documented:
    [weight * innerProd(G1(minDist)/minDist, d, d)] with [minDist] the
    voxelwise minimum over all targets of [|f - mu_l|]. *)
Definition histogramSparsity_quadForm_documented
    (self : histogramSparsity.t) (f d : volume) : Q :=
  let minDist := map (min_abs_distance (histogramSparsity.mus self)) f in
  histogramSparsity.weight self
  * tomographicModels.innerProd
      (map (fun m => histogramSparsity.Geman1 self m / m) minDist) d d.

(** [TV.apply] with a prior as documented: the new contents of [f] are
    [diffuse(f - f_0, delta, 1, p) + f_0]. *)
Definition TV_apply_documented (self : TV.t) (f0 fv : volume) : volume :=
  vadd (tomographicModels.diffuse_kernel (TV.leapct self) (vsub fv f0)
          (TV.delta self) 1 (TV.p self)) f0.

(** [azimuthalFilter.cost] as documented: [weight * sum(|H(f)|^p)] with the
    [p] of the constructor. *)
Definition azimuthalFilter_cost_documented
    (self : azimuthalFilter.t) (f : volume) : result (option Q) :=
  let Bf := vsub f (tomographicModels.AzimuthalBlur (azimuthalFilter.leapct self) f
                      (azimuthalFilter.FWHM self)) in
  t <-- tomographicModels.pow (azimuthalFilter.leapct self) (tomographicModels.abs Bf)
          (azimuthalFilter.p self) ;
  Ok (Some (azimuthalFilter.weight self * tomographicModels.sum t)).

Definition sample_TV : TV.t := TV.init exact_engine 0 (12 # 10) 1 (Some [1; 1; 1]).

Definition sample_azimuthalFilter : azimuthalFilter.t := azimuthalFilter.init exact_engine 1 1 1.

(** The engine raises to integral exponents as the integer power does,
    wherever that power is finite. *)
Definition integral_power (leapct : tomographicModels.t) : Prop :=
  forall (x : Q) (n : Z), ~ x == 0 \/ (0 <= n)%Z ->
    exists y, tomographicModels.power leapct x (inject_Z n) = Some y /\ y == Qpower x n.

(** The weighting of a quadratic form as the zero guard leaves it: 0 where
    the base is 0, [|x| ** e] elsewhere. *)
Definition guarded_weights (leapct : tomographicModels.t) (e : Q) (base w : volume) : Prop :=
  Forall2 (fun x y => if Qeq_bool x 0 then y = 0
                      else tomographicModels.power leapct (Qabs x) e = Some y) base w.

Definition sample_LpNorm_1 : LpNorm.t := LpNorm.init exact_engine 1 1 None.

Definition sample_LpNorm_prior : LpNorm.t := LpNorm.init exact_engine 1 1 (Some [1; 1; 1]).

(** One stage of a sequence: the heap after [flt.apply(f)], whatever the
    call returns; and the stages of a list of filters run one after the
    other, every filter of the list taking part. *)
Definition stage (flt : denoisingFilter.t) (f : ref) (h : heap) : result heap :=
  r <-- denoisingFilter.call_apply flt f h ; Ok (snd r).

Definition run_stages (fs : list denoisingFilter.t) (f : ref) (h : heap) : result heap :=
  fold_left (fun acc flt => h' <-- acc ; stage flt f h') fs (Ok h).

(** ** Notions for the targets of [histogramSparsity] *)

(** Membership of a list of numbers, up to the representation of the
    rationals. *)
Definition Qin (x : Q) (l : list Q) : Prop := Exists (Qeq x) l.

(** The argument [mus] with 0.0 appended if it was absent. *)
Definition with_zero (mus : list Q) : list Q :=
  if existsb (fun m => Qeq_bool m 0) mus then mus else mus ++ [0].

(** The gaps between neighbours of a list. *)
Definition adjacent_gaps (l : list Q) : list Q :=
  zip_with (fun b a => Qabs (b - a)) (tail l) l.

(** [x] lies halfway between two neighbouring targets. *)
Definition midpoint_of_adjacent (mus : list Q) (x : Q) : Prop :=
  exists (i : nat) (a b : Q), mus !! i = Some a /\ mus !! S i = Some b /\ x == (a + b) / 2.

(** ** Notions for the further properties *)

(** The arrays of the caller other than [f] are as they were, and no array
    has gone. *)
Definition frame (f : ref) (h h' : heap) : Prop :=
  (length h <= length h')%nat /\
  forall r : ref, r <> f -> (r < length h)%nat -> h' !! r = h !! r.

(** The filters whose [apply] is that of the parent class or that of one of
    the classes of the module. *)
Definition module_filter (flt : denoisingFilter.t) : Prop :=
  denoisingFilter.apply_override flt = None \/
  (exists s, flt = BlurFilter.object s) \/
  (exists s, flt = BilateralFilter.object s) \/
  (exists s, flt = MedianFilter.object s) \/
  (exists s, flt = TV.object s) \/
  (exists s, flt = LpNorm.object s).

(** An [LpNorm] with its prior taken away. *)
Definition LpNorm_without_prior (self : LpNorm.t) : LpNorm.t :=
  {| LpNorm.leapct := LpNorm.leapct self; LpNorm.p := LpNorm.p self;
     LpNorm.weight := LpNorm.weight self; LpNorm.f_0 := None;
     LpNorm.isDifferentiable := LpNorm.isDifferentiable self |}.

(** The term of target number [l_1] in the gradient of [histogramSparsity],
    at one voxel [x]. *)
Definition leave_one_out_term (self : histogramSparsity.t) (l_1 : nat) (x : Q) : Q :=
  fold_left (fun c l_2 =>
               if (l_1 =? l_2)%nat
               then c * histogramSparsity.Geman1 self (x - nth l_1 (histogramSparsity.mus self) 0)
               else c * histogramSparsity.Geman0 self (x - nth l_2 (histogramSparsity.mus self) 0))
            (seq 0 (length (histogramSparsity.mus self))) 1.

(** [w] to the power [n], for a natural number [n]. *)
Fixpoint Qpow_nat (w : Q) (n : nat) : Q :=
  match n with
  | O => 1
  | S n' => w * Qpow_nat w n'
  end.

(** ** The terms of the weighted sums, read off the documentation

    [weighted_terms call fs xs]: going through [fs] in list order, [xs] are
    the values [call] returns for exactly the filters that are
    differentiable and have a positive weight; a filter that is not
    differentiable, or whose weight is 0 or negative, contributes no term
    and its method is not asked for one. *)
Inductive weighted_terms {A : Type} (call : denoisingFilter.t -> result (option A)) :
    list denoisingFilter.t -> list A -> Prop :=
| terms_nil : weighted_terms call [] []
| terms_in (flt : denoisingFilter.t) (fs : list denoisingFilter.t) (x : A) (xs : list A) :
    denoisingFilter.isDifferentiable flt = true ->
    0 < denoisingFilter.weight flt ->
    call flt = Ok (Some x) ->
    weighted_terms call fs xs ->
    weighted_terms call (flt :: fs) (x :: xs)
| terms_out (flt : denoisingFilter.t) (fs : list denoisingFilter.t) (xs : list A) :
    denoisingFilter.isDifferentiable flt = false \/ denoisingFilter.weight flt <= 0 ->
    weighted_terms call fs xs ->
    weighted_terms call (flt :: fs) xs.

(** An [LpNorm] of negative weight, whose cost, gradient and quadratic form
    are not 0, and a sequence of a blur filter, an [LpNorm] of weight 1/2 and
    that one. *)
Definition sample_LpNorm_negative : LpNorm.t := LpNorm.init exact_engine 2 (-1) None.

Definition sample_weighted_sequence (beta : Q) : filterSequence.t :=
  filterSequence.append
    (filterSequence.append
       (filterSequence.append (filterSequence.init beta)
          (BlurFilter.object (BlurFilter.init exact_engine 2)))
       (LpNorm.object sample_LpNorm))
    (LpNorm.object sample_LpNorm_negative).

(** ** An engine with the range of float32

    The power of the exact engine, lost ([None]: the value is [inf]) when
    its magnitude exceeds the largest float32, (2 - 2^-23) * 2^127. *)
Definition float32_max : Q := inject_Z 340282346638528859811704183484516925440.

Definition float32_range_engine : tomographicModels.t :=
  {| tomographicModels.power :=
       fun x e => match Qpow_int x e with
                  | Some y => if Qle_bool (Qabs y) float32_max then Some y else None
                  | None => None
                  end;
     tomographicModels.BlurFilter_kernel := tomographicModels.BlurFilter_kernel exact_engine;
     tomographicModels.BilateralFilter_kernel :=
       tomographicModels.BilateralFilter_kernel exact_engine;
     tomographicModels.MedianFilter_kernel := tomographicModels.MedianFilter_kernel exact_engine;
     tomographicModels.AzimuthalBlur_kernel := tomographicModels.AzimuthalBlur_kernel exact_engine;
     tomographicModels.diffuse_kernel := tomographicModels.diffuse_kernel exact_engine;
     tomographicModels.TVcost := tomographicModels.TVcost exact_engine;
     tomographicModels.TVgradient := tomographicModels.TVgradient exact_engine;
     tomographicModels.TVquadForm := tomographicModels.TVquadForm exact_engine |}.

(** The smallest positive float32, 2^-149. *)
Definition float32_tiny : Q := 1 # 713623846352979940529142984724747568191373312.

(** ** The effect of the stages of a sequence, read off the classes

    [stage_effect flt v v']: the [apply] of the filter [flt], run on an array
    that holds [v], leaves it holding [v'].  The native smoothers and [TV]
    run their kernel whatever their flag [isDifferentiable] and their weight
    are; a filter that inherits [apply] does nothing when it is not
    differentiable and takes the gradient step otherwise. *)
Inductive stage_effect : denoisingFilter.t -> volume -> volume -> Prop :=
| effect_BlurFilter (s : BlurFilter.t) (v : volume) :
    stage_effect (BlurFilter.object s) v
      (tomographicModels.BlurFilter_kernel (BlurFilter.leapct s) v (BlurFilter.FWHM s))
| effect_BilateralFilter (s : BilateralFilter.t) (v : volume) :
    stage_effect (BilateralFilter.object s) v
      (tomographicModels.BilateralFilter_kernel (BilateralFilter.leapct s) v
         (BilateralFilter.spatialFWHM s) (BilateralFilter.intensityFWHM s)
         (BilateralFilter.scale s))
| effect_MedianFilter (s : MedianFilter.t) (v : volume) :
    stage_effect (MedianFilter.object s) v
      (tomographicModels.MedianFilter_kernel (MedianFilter.leapct s) v
         (MedianFilter.threshold s) (MedianFilter.windowSize s))
| effect_TV (s : TV.t) (v : volume) :
    TV.f_0 s = None ->
    stage_effect (TV.object s) v
      (tomographicModels.diffuse_kernel (TV.leapct s) v (TV.delta s) 1 (TV.p s))
| effect_not_differentiable (flt : denoisingFilter.t) (v : volume) :
    denoisingFilter.apply_override flt = None ->
    denoisingFilter.isDifferentiable flt = false ->
    stage_effect flt v v
| effect_flat (flt : denoisingFilter.t) (v g : volume) (denom : Q) :
    denoisingFilter.apply_override flt = None ->
    denoisingFilter.isDifferentiable flt = true ->
    denoisingFilter.call_gradient flt v = Ok (Some g) ->
    denoisingFilter.call_quadForm flt v g = Ok (Some denom) ->
    denom <= 1 # 10000000000000000 ->
    stage_effect flt v v
| effect_step (flt : denoisingFilter.t) (v g : volume) (denom : Q) :
    denoisingFilter.apply_override flt = None ->
    denoisingFilter.isDifferentiable flt = true ->
    denoisingFilter.call_gradient flt v = Ok (Some g) ->
    denoisingFilter.call_quadForm flt v g = Ok (Some denom) ->
    1 # 10000000000000000 < denom ->
    stage_effect flt v (vsub v (vscale (tomographicModels.sum (vsquare g) / denom) g))
| effect_LpNorm (s : LpNorm.t) (v v' : volume) :
    LpNorm.f_0 s = None ->
    stage_effect (LpNorm.super s) v v' ->
    stage_effect (LpNorm.object s) v v'.

(** The stages of a list of filters, every one of them, in list order, each
    on what the one before left. *)
Inductive stages_effect : list denoisingFilter.t -> volume -> volume -> Prop :=
| stages_nil (v : volume) : stages_effect [] v v
| stages_cons (flt : denoisingFilter.t) (fs : list denoisingFilter.t) (v v1 v2 : volume) :
    stage_effect flt v v1 ->
    stages_effect fs v1 v2 ->
    stages_effect (flt :: fs) v v2.

(** A blur filter (not differentiable), a [TV] of weight 0 and an [LpNorm]
    of weight 0, both without prior. *)
Definition sample_stages (beta : Q) : filterSequence.t :=
  filterSequence.append
    (filterSequence.append
       (filterSequence.append (filterSequence.init beta)
          (BlurFilter.object (BlurFilter.init exact_engine 2)))
       (TV.object (TV.init exact_engine 0 (12 # 10) 0 None)))
    (LpNorm.object (LpNorm.init exact_engine 2 0 None)).

(** * Properties *)

(** ** The generic [apply] of the parent class *)

Lemma bind_read (A : Type) (f : ref) (h : heap) (fv : volume) (k : volume -> M A) :
  h !! f = Some fv -> bind (read f) k h = k fv h.
Proof. intros Hf. unfold bind, read. now rewrite Hf. Qed.

Lemma bind_write (A : Type) (f : ref) (h : heap) (fv v : volume) (k : unit -> M A) :
  h !! f = Some fv -> bind (write f v) k h = k tt (<[f := v]> h).
Proof. intros Hf. unfold bind, write. now rewrite Hf. Qed.

Lemma bind_lift_Ok (A B : Type) (r : result A) (a : A) (h : heap) (k : A -> M B) :
  r = Ok a -> bind (lift r) k h = k a h.
Proof. intros ->. reflexivity. Qed.

Lemma Qle_bool_false_iff (a b : Q) : Qle_bool a b = false <-> b < a.
Proof.
  split.
  - intros H. apply Qnot_le_lt. intros Hle. apply Qle_bool_iff in Hle. congruence.
  - intros H. destruct (Qle_bool a b) eqn:E; [| reflexivity].
    apply Qle_bool_iff in E. lra.
Qed.

Lemma Qgt_bool_true_iff (a b : Q) : Qgt_bool a b = true <-> b < a.
Proof. unfold Qgt_bool. rewrite negb_true_iff. apply Qle_bool_false_iff. Qed.

Lemma Qgt_bool_false_iff (a b : Q) : Qgt_bool a b = false <-> a <= b.
Proof. unfold Qgt_bool. rewrite negb_false_iff. apply Qle_bool_iff. Qed.

(** C1.  A filter that inherits [apply] from the parent class: when it is
    not differentiable, [apply(f)] returns [None] and leaves [f] alone; when
    it is differentiable, with [g = gradient(f)] and [denom = quadForm(f, g)],
    [apply(f)] returns [f] itself, unchanged if [denom <= 1e-16] and holding
    [f - (sum(g**2) / denom) * g] otherwise. *)
Theorem generic_apply_step (self : denoisingFilter.t) (f : ref) (h : heap) :
  denoisingFilter.apply_override self = None ->
  (denoisingFilter.isDifferentiable self = false ->
   denoisingFilter.call_apply self f h = Ok (None, h)) /\
  (denoisingFilter.isDifferentiable self = true ->
   forall (fv g : volume) (denom : Q),
     h !! f = Some fv ->
     denoisingFilter.call_gradient self fv = Ok (Some g) ->
     denoisingFilter.call_quadForm self fv g = Ok (Some denom) ->
     (denom <= 1 # 10000000000000000 ->
      denoisingFilter.call_apply self f h = Ok (Some f, h)) /\
     (1 # 10000000000000000 < denom ->
      denoisingFilter.call_apply self f h =
        Ok (Some f,
            <[f := vsub fv (vscale (tomographicModels.sum (vsquare g) / denom) g)]> h))).
Proof.
  intros Hov. unfold denoisingFilter.call_apply. rewrite Hov.
  unfold denoisingFilter.apply. split.
  - intros ->. reflexivity.
  - intros -> fv g denom Hf Hg Hq.
    rewrite (bind_read _ _ _ _ _ Hf).
    rewrite (bind_lift_Ok _ _ _ g) by (rewrite Hg; reflexivity).
    rewrite (bind_lift_Ok _ _ _ denom) by (rewrite Hq; reflexivity).
    split; intros Hd.
    + apply Qle_bool_iff in Hd. rewrite Hd. reflexivity.
    + apply Qle_bool_false_iff in Hd. rewrite Hd.
      rewrite (bind_write _ _ _ _ _ _ Hf). reflexivity.
Qed.

(** C1 on the parent class itself and on an [LpNorm] seen through
    [super()], at a flat point and at [f = [1, -1, 2]]. *)
Lemma generic_apply_step_witness :
  denoisingFilter.call_apply (denoisingFilter.init exact_engine) 0%nat [[1; -1; 2]]
    = Ok (None, [[1; -1; 2]]) /\
  denoisingFilter.call_apply (LpNorm.super sample_LpNorm) 0%nat [[0; 0; 0]]
    = Ok (Some 0%nat, [[0; 0; 0]]) /\
  denoisingFilter.call_apply (LpNorm.super sample_LpNorm) 0%nat [[1; -1; 2]]
    = Ok (Some 0%nat,
          <[0%nat := vsub [1; -1; 2]
                       (vscale (tomographicModels.sum (vsquare [2 # 2; -2 # 2; 4 # 2]) / (768 # 128))
                               [2 # 2; -2 # 2; 4 # 2])]> [[1; -1; 2]]).
Proof.
  split; [| split].
  - apply (generic_apply_step (denoisingFilter.init exact_engine) 0%nat [[1; -1; 2]] eq_refl).
    reflexivity.
  - apply (proj2 (generic_apply_step (LpNorm.super sample_LpNorm) 0%nat [[0; 0; 0]] eq_refl)
             eq_refl [0; 0; 0] [0 # 2; 0 # 2; 0 # 2] (0 # 128));
      [reflexivity | vm_compute; reflexivity | vm_compute; reflexivity | vm_compute; discriminate].
  - apply (proj2 (generic_apply_step (LpNorm.super sample_LpNorm) 0%nat [[1; -1; 2]] eq_refl)
             eq_refl [1; -1; 2] [2 # 2; -2 # 2; 4 # 2] (768 # 128));
      [reflexivity | vm_compute; reflexivity | vm_compute; reflexivity | reflexivity].
Defined.

(** ** The weighted sums of [filterSequence] *)

Section Accumulation.
Context {A : Type} (call : denoisingFilter.t -> result (option A)) (add : A -> A -> A).

Lemma acc_loop_selected (fs : list denoisingFilter.t) (acc : A) :
  acc_loop call add fs acc = acc_loop call add (selected fs) acc.
Proof.
  revert acc. induction fs as [| flt fs IH]; intros acc; [reflexivity |].
  unfold selected in *. simpl.
  destruct (filterSequence.participates flt) eqn:E; simpl.
  - rewrite E. destruct (rbind (call flt) expect); simpl; [apply IH | reflexivity].
  - apply IH.
Qed.

Lemma acc_loop_differentiable (fs : list denoisingFilter.t) (acc : A) :
  acc_loop call add fs acc
  = acc_loop call add (List.filter denoisingFilter.isDifferentiable fs) acc.
Proof.
  revert acc. induction fs as [| flt fs IH]; intros acc; [reflexivity |].
  simpl. destruct (denoisingFilter.isDifferentiable flt) eqn:E; simpl.
  - destruct (filterSequence.participates flt); [| apply IH].
    destruct (rbind (call flt) expect); simpl; [apply IH | reflexivity].
  - unfold filterSequence.participates. rewrite E. simpl. apply IH.
Qed.

Lemma acc_loop_Ok (fs : list denoisingFilter.t) (xs : list A) (acc : A) :
  Forall2 (fun flt x => call flt = Ok (Some x)) (selected fs) xs ->
  acc_loop call add fs acc = Ok (fold_left add xs acc).
Proof.
  rewrite acc_loop_selected.
  assert (Hsel : Forall (fun flt => filterSequence.participates flt = true) (selected fs)).
  { unfold selected. apply List.Forall_forall. intros flt Hin.
    apply List.filter_In in Hin. tauto. }
  revert Hsel. generalize (selected fs). intros l Hsel H. revert acc.
  induction H as [| flt x l xs Hx _ IH]; intros acc; [reflexivity |].
  inversion Hsel as [| ? ? Hp Hsel']; subst.
  simpl. rewrite Hp, Hx. simpl. apply IH, Hsel'.
Qed.

End Accumulation.

Lemma cost_loop_acc (fs : list denoisingFilter.t) (f : volume) (acc : Q) :
  filterSequence.cost_loop fs f acc
  = acc_loop (fun flt => denoisingFilter.call_cost flt f) Qplus fs acc.
Proof.
  revert acc. induction fs as [| flt fs IH]; intros acc; simpl; [reflexivity |].
  destruct (filterSequence.participates flt); [| apply IH].
  destruct (rbind (denoisingFilter.call_cost flt f) expect); simpl; [apply IH | reflexivity].
Qed.

Lemma gradient_loop_acc (fs : list denoisingFilter.t) (f : volume) (acc : volume) :
  filterSequence.gradient_loop fs f acc
  = acc_loop (fun flt => denoisingFilter.call_gradient flt f) vadd fs acc.
Proof.
  revert acc. induction fs as [| flt fs IH]; intros acc; simpl; [reflexivity |].
  destruct (filterSequence.participates flt); [| apply IH].
  destruct (rbind (denoisingFilter.call_gradient flt f) expect); simpl; [apply IH | reflexivity].
Qed.

Lemma quadForm_loop_acc (fs : list denoisingFilter.t) (f d : volume) (acc : Q) :
  filterSequence.quadForm_loop fs f d acc
  = acc_loop (fun flt => denoisingFilter.call_quadForm flt f d) Qplus fs acc.
Proof.
  revert acc. induction fs as [| flt fs IH]; intros acc; simpl; [reflexivity |].
  destruct (filterSequence.participates flt); [| apply IH].
  destruct (rbind (denoisingFilter.call_quadForm flt f d) expect); simpl; [apply IH | reflexivity].
Qed.

Lemma fold_left_Qplus (xs : list Q) (acc : Q) :
  fold_left Qplus xs acc == acc + Qsum xs.
Proof.
  revert acc. induction xs as [| x xs IH]; intros acc; simpl.
  - ring.
  - rewrite IH. ring.
Qed.

#[local] Instance veq_Equivalence : Equivalence veq.
Proof.
  unfold veq. split.
  - intros a. induction a; constructor; [reflexivity | assumption].
  - intros a b H. induction H; constructor; [symmetry |]; assumption.
  - intros a b c H. revert c. induction H; intros c Hc; inversion Hc; subst;
      constructor; [etransitivity; eassumption | auto].
Qed.

Lemma veq_length (a b : volume) : veq a b -> length a = length b.
Proof. intros H. induction H; simpl; congruence. Qed.

Lemma vadd_veq (a a' b b' : volume) : veq a a' -> veq b b' -> veq (vadd a b) (vadd a' b').
Proof.
  intros Ha. revert b b'. induction Ha as [| x x' a a' Hx _ IH]; intros b b' Hb.
  - constructor.
  - destruct Hb as [| y y' b b' Hy Hb]; [constructor |].
    unfold vadd in *. simpl. constructor; [now rewrite Hx, Hy | apply IH, Hb].
Qed.

Lemma vadd_assoc (a b c : volume) : veq (vadd (vadd a b) c) (vadd a (vadd b c)).
Proof.
  unfold vadd. revert b c. induction a as [| x a IH]; intros [| y b] [| z c]; simpl;
    try constructor; [ring | apply IH].
Qed.

Lemma vadd_zero_r (a : volume) : veq (vadd a (repeat 0 (length a))) a.
Proof.
  unfold vadd. induction a as [| x a IH]; simpl; constructor; [ring | exact IH].
Qed.

Lemma vadd_zero_l (a : volume) : veq (vadd (repeat 0 (length a)) a) a.
Proof.
  unfold vadd. induction a as [| x a IH]; simpl; constructor; [ring | exact IH].
Qed.

Lemma vadd_length (a b : volume) : length b = length a -> length (vadd a b) = length a.
Proof. intros H. unfold vadd. rewrite length_zip_with. lia. Qed.

Lemma vsum_length (n : nat) (gs : list volume) :
  Forall (fun g => length g = n) gs -> length (vsum n gs) = n.
Proof.
  induction 1 as [| g gs Hg _ IH]; simpl.
  - apply repeat_length.
  - unfold vadd. rewrite length_zip_with. fold (vsum n gs). lia.
Qed.

Lemma fold_left_vadd (n : nat) (gs : list volume) (acc : volume) :
  length acc = n -> Forall (fun g => length g = n) gs ->
  veq (fold_left vadd gs acc) (vadd acc (vsum n gs)).
Proof.
  intros Hacc Hgs. revert acc Hacc.
  induction Hgs as [| g gs Hg Hgs IH]; intros acc Hacc; simpl.
  - subst n. symmetry. apply vadd_zero_r.
  - rewrite IH by (rewrite vadd_length; congruence).
    apply vadd_assoc.
Qed.

Lemma vfill_repeat (a : volume) (c : Q) : vfill a c = repeat c (length a).
Proof. unfold vfill. induction a; simpl; congruence. Qed.

Lemma vscale_r_veq (a b : volume) (c : Q) : veq a b -> veq (vscale_r a c) (vscale c b).
Proof.
  intros H. unfold vscale_r, vscale. induction H as [| x y a b Hxy _ IH]; simpl; constructor.
  - rewrite Hxy. ring.
  - exact IH.
Qed.

Lemma weighted_terms_selected (A : Type) (call : denoisingFilter.t -> result (option A))
    (fs : list denoisingFilter.t) (xs : list A) :
  weighted_terms call fs xs ->
  Forall2 (fun flt x => call flt = Ok (Some x)) (selected fs) xs.
Proof.
  unfold selected. induction 1 as [| flt fs x xs Hd Hw Hx _ IH | flt fs xs Hout _ IH].
  - constructor.
  - assert (Hp : filterSequence.participates flt = true).
    { unfold filterSequence.participates. rewrite Hd. apply Qgt_bool_true_iff, Hw. }
    cbn [List.filter]. rewrite Hp. constructor; assumption.
  - assert (Hp : filterSequence.participates flt = false).
    { unfold filterSequence.participates. destruct Hout as [-> | Hw]; [reflexivity |].
      apply Qgt_bool_false_iff in Hw. rewrite Hw. apply andb_false_r. }
    cbn [List.filter]. rewrite Hp. exact IH.
Qed.

(** C2.  For a nonempty list of filters: when [beta <= 0], [cost] and
    [quadForm] are exactly 0 and [gradient] is the zero volume of the shape
    of [f]; when [beta > 0], each of the three is [beta] times the sum of
    what exactly the filters with [isDifferentiable == True] and
    [weight > 0] return, the others contributing nothing; filters that are
    not differentiable have no influence on the three results. *)
Theorem filterSequence_weighted_sums (self : filterSequence.t) (f d : volume) :
  filterSequence.filters self <> [] ->
  (filterSequence.beta self <= 0 ->
   filterSequence.cost self f = Ok 0 /\
   filterSequence.gradient self f = Ok (vfill f 0) /\
   filterSequence.quadForm self f d = Ok 0) /\
  (0 < filterSequence.beta self ->
   (forall cs : list Q,
      weighted_terms (fun flt => denoisingFilter.call_cost flt f)
        (filterSequence.filters self) cs ->
      exists r, filterSequence.cost self f = Ok r /\
                r == filterSequence.beta self * Qsum cs) /\
   (forall gs : list volume,
      weighted_terms (fun flt => denoisingFilter.call_gradient flt f)
        (filterSequence.filters self) gs ->
      Forall (fun g => length g = length f) gs ->
      exists D, filterSequence.gradient self f = Ok D /\
                veq D (vscale (filterSequence.beta self) (vsum (length f) gs))) /\
   (forall qs : list Q,
      weighted_terms (fun flt => denoisingFilter.call_quadForm flt f d)
        (filterSequence.filters self) qs ->
      exists r, filterSequence.quadForm self f d = Ok r /\
                r == filterSequence.beta self * Qsum qs)) /\
  (forall other : filterSequence.t,
     filterSequence.beta other = filterSequence.beta self ->
     filterSequence.filters other <> [] ->
     List.filter denoisingFilter.isDifferentiable (filterSequence.filters other)
     = List.filter denoisingFilter.isDifferentiable (filterSequence.filters self) ->
     filterSequence.cost other f = filterSequence.cost self f /\
     filterSequence.gradient other f = filterSequence.gradient self f /\
     filterSequence.quadForm other f d = filterSequence.quadForm self f d).
Proof.
  intros Hne. split; [| split].
  - intros Hb. apply Qgt_bool_false_iff in Hb.
    unfold filterSequence.cost, filterSequence.gradient, filterSequence.quadForm.
    rewrite Hb. destruct (filterSequence.filters self); [congruence |]. auto.
  - intros Hb. apply Qgt_bool_true_iff in Hb. split; [| split].
    + intros cs Hcs. apply weighted_terms_selected in Hcs.
      unfold filterSequence.cost. rewrite Hb.
      rewrite cost_loop_acc, (acc_loop_Ok _ _ _ cs) by exact Hcs. simpl.
      eexists. split; [reflexivity |]. rewrite fold_left_Qplus. ring.
    + intros gs Hgs Hlen. apply weighted_terms_selected in Hgs.
      unfold filterSequence.gradient.
      destruct (filterSequence.filters self) as [| flt0 fs0] eqn:Efs; [congruence |].
      rewrite Hb. unfold tomographicModels.copyData.
      rewrite gradient_loop_acc, (acc_loop_Ok _ _ _ gs) by exact Hgs. simpl.
      eexists. split; [reflexivity |]. apply vscale_r_veq.
      rewrite (fold_left_vadd (length f)); [| unfold vfill; apply length_map | exact Hlen].
      rewrite vfill_repeat.
      rewrite <- (vsum_length (length f) gs Hlen) at 1.
      apply vadd_zero_l.
    + intros qs Hqs. apply weighted_terms_selected in Hqs.
      unfold filterSequence.quadForm. rewrite Hb.
      rewrite quadForm_loop_acc, (acc_loop_Ok _ _ _ qs) by exact Hqs. simpl.
      eexists. split; [reflexivity |]. rewrite fold_left_Qplus. ring.
  - intros other Hbeta Hne' Hdiff.
    unfold filterSequence.cost, filterSequence.gradient, filterSequence.quadForm.
    rewrite Hbeta.
    destruct (filterSequence.filters self) as [| flt0 fs0] eqn:Efs; [congruence |].
    destruct (filterSequence.filters other) as [| flt1 fs1] eqn:Efo; [congruence |].
    rewrite !cost_loop_acc, !gradient_loop_acc, !quadForm_loop_acc.
    rewrite (acc_loop_differentiable _ _ (flt1 :: fs1)).
    rewrite (acc_loop_differentiable _ _ (flt0 :: fs0)).
    rewrite (acc_loop_differentiable _ vadd (flt1 :: fs1)).
    rewrite (acc_loop_differentiable _ vadd (flt0 :: fs0)).
    rewrite (acc_loop_differentiable (fun flt => denoisingFilter.call_quadForm flt f d) _ (flt1 :: fs1)).
    rewrite (acc_loop_differentiable (fun flt => denoisingFilter.call_quadForm flt f d) _ (flt0 :: fs0)).
    rewrite Hdiff. auto.
Qed.

Lemma sample_sequence_nonempty (beta : Q) : filterSequence.filters (sample_sequence beta) <> [].
Proof. discriminate. Qed.

Lemma sample_weighted_sequence_nonempty (beta : Q) :
  filterSequence.filters (sample_weighted_sequence beta) <> [].
Proof. discriminate. Qed.

(** The terms of the sample sequence: the blur filter is not differentiable
    and the second [LpNorm] has weight -1, so the one term is that of the
    first [LpNorm], although the second would return -6, [[-2, 2, -4]] and
    -6. *)
Lemma sample_weighted_terms (A : Type) (call : denoisingFilter.t -> result (option A))
    (x : A) (beta : Q) :
  call (LpNorm.object sample_LpNorm) = Ok (Some x) ->
  weighted_terms call (filterSequence.filters (sample_weighted_sequence beta)) [x].
Proof.
  intros Hx. unfold sample_weighted_sequence, filterSequence.append, filterSequence.init.
  cbn [filterSequence.filters app].
  apply terms_out; [left; reflexivity |].
  apply terms_in; [reflexivity | reflexivity | exact Hx |].
  apply terms_out; [right; discriminate |].
  apply terms_nil.
Qed.

(** C2 on a sequence of a blur filter, an [LpNorm] of weight 1/2 and an
    [LpNorm] of weight -1, with [beta = 0] and with [beta = 2]: the filter
    of negative weight, whose own cost is -6, adds nothing. *)
Lemma filterSequence_weighted_sums_witness :
  LpNorm.cost sample_LpNorm_negative [1; -1; 2] = Ok (Some (-6 # 1)) /\
  (filterSequence.cost (sample_weighted_sequence 0) [1; -1; 2] = Ok 0 /\
   filterSequence.gradient (sample_weighted_sequence 0) [1; -1; 2] = Ok (vfill [1; -1; 2] 0) /\
   filterSequence.quadForm (sample_weighted_sequence 0) [1; -1; 2] [1; 1; 1] = Ok 0) /\
  (exists r, filterSequence.cost (sample_weighted_sequence 2) [1; -1; 2] = Ok r /\
             r == 2 * Qsum [6 # 2]) /\
  (exists D, filterSequence.gradient (sample_weighted_sequence 2) [1; -1; 2] = Ok D /\
             veq D (vscale 2 (vsum 3 [[2 # 2; -2 # 2; 4 # 2]]))) /\
  (exists r, filterSequence.quadForm (sample_weighted_sequence 2) [1; -1; 2] [1; 1; 1] = Ok r /\
             r == 2 * Qsum [6 # 2]).
Proof.
  split; [vm_compute; reflexivity |].
  split; [| split; [| split]].
  - apply (proj1 (filterSequence_weighted_sums (sample_weighted_sequence 0)
                    [1; -1; 2] [1; 1; 1] (sample_weighted_sequence_nonempty 0))).
    discriminate.
  - apply (proj1 (proj1 (proj2 (filterSequence_weighted_sums (sample_weighted_sequence 2)
                    [1; -1; 2] [1; 1; 1] (sample_weighted_sequence_nonempty 2))) eq_refl)).
    apply sample_weighted_terms. vm_compute. reflexivity.
  - apply (proj1 (proj2 (proj1 (proj2 (filterSequence_weighted_sums
                    (sample_weighted_sequence 2)
                    [1; -1; 2] [1; 1; 1] (sample_weighted_sequence_nonempty 2))) eq_refl))).
    + apply sample_weighted_terms. vm_compute. reflexivity.
    + repeat constructor.
  - apply (proj2 (proj2 (proj1 (proj2 (filterSequence_weighted_sums
                    (sample_weighted_sequence 2)
                    [1; -1; 2] [1; 1; 1] (sample_weighted_sequence_nonempty 2))) eq_refl))).
    apply sample_weighted_terms. vm_compute. reflexivity.
Defined.

(** ** [histogramSparsity.quadForm] *)

Lemma minDiff_loop_voxelwise (a : Q -> Q) (rest : list Q) (f : volume) :
  fold_left (fun minDiff mu =>
               tomographicModels.minimum minDiff (tomographicModels.abs (vshift minDiff mu)))
            rest (map a f)
  = map (fun x => fold_left (fun m mu => Qmin m (Qabs (m - mu))) rest (a x)) f.
Proof.
  revert a. induction rest as [| mu rest IH]; intros a; cbn [fold_left]; [reflexivity |].
  unfold tomographicModels.minimum, tomographicModels.abs, vshift in *.
  rewrite !map_map.
  replace (zip_with Qmin (map a f) (map (fun x => Qabs (a x - mu)) f))
    with (map (fun x => Qmin (a x) (Qabs (a x - mu))) f).
  - apply (IH (fun x => Qmin (a x) (Qabs (a x - mu)))).
  - clear. induction f as [| x f IHf]; [reflexivity |].
    cbn [map zip_with]. now rewrite IHf.
Qed.

(** What the loop of [quadForm] computes for one voxel: every target is
    subtracted from the running minimum, not from the voxel. *)
Lemma histogramSparsity_quadForm_voxelwise (self : histogramSparsity.t) (f d : volume)
    (mu0 : Q) (rest : list Q) :
  histogramSparsity.mus self = mu0 :: rest ->
  histogramSparsity.quadForm self f d
  = Ok (Some (histogramSparsity.weight self
              * tomographicModels.innerProd
                  (map (histogramSparsity.Geman1_over_x self)
                     (map (fun x => fold_left (fun m mu => Qmin m (Qabs (m - mu))) rest
                                      (Qabs (x - mu0))) f)) d d)).
Proof.
  intros Hmus. unfold histogramSparsity.quadForm. rewrite Hmus.
  change (index (mu0 :: rest) 0) with (Ok mu0).
  change (tail (mu0 :: rest)) with rest. cbn [rbind].
  unfold tomographicModels.copyData, tomographicModels.abs at 2, vshift at 2.
  rewrite map_map, (minDiff_loop_voxelwise (fun x => Qabs (x - mu0))). reflexivity.
Qed.

(** C3.  [histogramSparsity(leapct, [1.0, 2.0])] at [f = [2.25]] and
    [d = [1.0]]: the code returns [2*G/((9/16 + G)^2)], the curvature at
    distance 3/4, while the nearest target, 2.0, is at distance 1/4 and the
    documented value is [2*G/((1/16 + G)^2)], with [G = GemanParam = 1/4]. *)
Theorem histogramSparsity_quadForm_running_minimum :
  exists self c,
    histogramSparsity.init exact_engine [1; 2] 1 = Ok self /\
    histogramSparsity.mus self = [0; 1; 2] /\
    histogramSparsity.quadForm self [9 # 4] [1] = Ok (Some c) /\
    c == (1 # 2) / (((9 # 16) + (1 # 4)) * ((9 # 16) + (1 # 4))) /\
    min_abs_distance (histogramSparsity.mus self) (9 # 4) == 1 # 4 /\
    histogramSparsity_quadForm_documented self [9 # 4] [1]
      == (1 # 2) / (((1 # 16) + (1 # 4)) * ((1 # 16) + (1 # 4))) /\
    ~ c == histogramSparsity_quadForm_documented self [9 # 4] [1].
Proof.
  eexists. eexists. split; [vm_compute; reflexivity |].
  split; [reflexivity |].
  split; [vm_compute; reflexivity |].
  repeat split; vm_compute; discriminate || reflexivity.
Qed.

(** ** [TV.apply] *)

Lemma inplace_fresh (k : volume -> volume) (h : heap) (v : volume) :
  tomographicModels.inplace k (length h) (h ++ [v]) = Ok (length h, h ++ [k v]).
Proof.
  unfold tomographicModels.inplace.
  rewrite (bind_read _ _ _ v) by apply list_lookup_middle, eq_refl.
  rewrite (bind_write _ _ _ v) by apply list_lookup_middle, eq_refl.
  unfold ret. rewrite insert_app_r_alt by lia.
  now rewrite Nat.sub_diag.
Qed.

(** With a prior, [diffuse] runs on a fresh array that is dropped; the
    volume of the caller ends as [f + f_0]. *)
Lemma TV_apply_with_prior (self : TV.t) (f : ref) (h : heap) (f0 fv : volume) :
  TV.f_0 self = Some f0 -> h !! f = Some fv ->
  TV.apply self f h
  = Ok (Some f,
        <[f := vadd fv f0]> h
        ++ [tomographicModels.diffuse_kernel (TV.leapct self) (vsub fv f0)
              (TV.delta self) 1 (TV.p self)]).
Proof.
  intros H0 Hf. unfold TV.apply. rewrite H0.
  rewrite (bind_read _ _ _ _ _ Hf).
  unfold bind at 1. unfold alloc.
  unfold bind at 1. unfold tomographicModels.diffuse. rewrite inplace_fresh.
  assert (Hlt : (f < length h)%nat) by (eapply lookup_lt_Some; exact Hf).
  rewrite (bind_read _ _ _ fv) by (rewrite lookup_app_l; assumption).
  rewrite (bind_write _ _ _ fv) by (rewrite lookup_app_l; assumption).
  unfold ret. now rewrite insert_app_l.
Qed.

Lemma TV_apply_without_prior (self : TV.t) (f : ref) (h : heap) (fv : volume) :
  TV.f_0 self = None -> h !! f = Some fv ->
  TV.apply self f h
  = Ok (Some f,
        <[f := tomographicModels.diffuse_kernel (TV.leapct self) fv
                 (TV.delta self) 1 (TV.p self)]> h).
Proof.
  intros H0 Hf. unfold TV.apply. rewrite H0.
  unfold tomographicModels.diffuse, tomographicModels.inplace.
  unfold bind at 1. rewrite (bind_read _ _ _ _ _ Hf).
  now rewrite (bind_write _ _ _ _ _ _ Hf).
Qed.

(** C4.  [TV(leapct, delta=0, p=1.2, weight=1, f_0=[1,1,1]).apply(f)] at
    [f = [0, 2, 4]]: the call returns [f], which holds [f + f_0 = [1, 3, 5]];
    the diffused copy of [f - f_0] is left in a dropped array, and the
    documented result [diffuse(f - f_0) + f_0] is a different volume. *)
Theorem TV_apply_prior_drops_diffusion :
  TV.apply sample_TV 0%nat [[0; 2; 4]]
  = Ok (Some 0%nat,
        [vadd [0; 2; 4] [1; 1; 1];
         tomographicModels.diffuse_kernel exact_engine (vsub [0; 2; 4] [1; 1; 1])
           (TV.delta sample_TV) 1 (TV.p sample_TV)]) /\
  veq (vadd [0; 2; 4] [1; 1; 1]) [1; 3; 5] /\
  veq (TV_apply_documented sample_TV [1; 1; 1] [0; 2; 4]) [1; 3; 4] /\
  ~ veq (vadd [0; 2; 4] [1; 1; 1]) (TV_apply_documented sample_TV [1; 1; 1] [0; 2; 4]).
Proof.
  split; [exact (TV_apply_with_prior sample_TV 0%nat [[0; 2; 4]] [1; 1; 1] [0; 2; 4]
                   eq_refl eq_refl) |].
  split; [repeat constructor |].
  split; [repeat constructor |].
  intros H. vm_compute in H.
  inversion H as [| ? ? ? ? _ H1]; subst.
  inversion H1 as [| ? ? ? ? _ H2]; subst.
  inversion H2 as [| ? ? ? ? H3 _]; subst.
  vm_compute in H3. discriminate.
Qed.

(** ** [azimuthalFilter.cost] *)

(** C5.  The body of [azimuthalFilter.cost] raises [p] as a bare name: with
    no global of that name the call ends in a [NameError] for every filter
    and volume, and in no case does the result depend on the [p] the filter
    was constructed with; the documented cost of
    [azimuthalFilter(leapct, FWHM=1, p=1, weight=1)] at [f = [0, 2, 4]]
    is 3. *)
Theorem azimuthalFilter_cost_unbound_p :
  (forall (leapct : tomographicModels.t) (FWHM p weight : Q) (f : volume),
     azimuthalFilter.cost None (azimuthalFilter.init leapct FWHM p weight) f
     = Raise (NameError "p")) /\
  (forall (global_p : option Q) (leapct : tomographicModels.t) (FWHM p p' weight : Q)
          (f : volume),
     azimuthalFilter.cost global_p (azimuthalFilter.init leapct FWHM p weight) f
     = azimuthalFilter.cost global_p (azimuthalFilter.init leapct FWHM p' weight) f) /\
  azimuthalFilter.cost None sample_azimuthalFilter [0; 2; 4] = Raise (NameError "p") /\
  (exists c, azimuthalFilter_cost_documented sample_azimuthalFilter [0; 2; 4] = Ok (Some c) /\
             c == 3).
Proof.
  split; [reflexivity |]. split; [reflexivity |]. split; [reflexivity |].
  eexists. split; [vm_compute; reflexivity | reflexivity].
Qed.

(** ** The [LpNorm] reference case *)

Lemma pow_integral (leapct : tomographicModels.t) (a : volume) (n : Z) :
  integral_power leapct ->
  Forall (fun x => ~ x == 0 \/ (0 <= n)%Z) a ->
  exists t, tomographicModels.pow leapct a (inject_Z n) = Ok t /\
            Forall2 (fun x y => y == Qpower x n) a t.
Proof.
  intros Hp Ha. unfold tomographicModels.pow.
  induction Ha as [| x a Hx _ [t [Ht Hall]]]; simpl.
  - exists []. split; [reflexivity | constructor].
  - destruct (Hp x n Hx) as [y [Hy Hyx]]. rewrite Hy. simpl. rewrite Ht. simpl.
    exists (y :: t). split; [reflexivity | constructor; assumption].
Qed.

Lemma Qred_inject_Z (n : Z) : Qred (inject_Z n) = inject_Z n.
Proof.
  unfold Qred, inject_Z.
  pose proof (Z.ggcd_gcd n 1) as Hg. pose proof (Z.ggcd_correct_divisors n 1) as Hd.
  destruct (Z.ggcd n 1) as [g [a b]]. simpl in *.
  rewrite Z.gcd_1_r in Hg. subst g. destruct Hd as [Ha Hb].
  rewrite Z.mul_1_l in Ha, Hb. subst a b. reflexivity.
Qed.

Lemma exact_engine_integral_power : integral_power exact_engine.
Proof.
  intros x n Hx. simpl. unfold Qpow_int. rewrite Qred_inject_Z. simpl.
  destruct (Qeq_bool x 0 && (n <? 0)%Z) eqn:E.
  - apply andb_true_iff in E. destruct E as [E1 E2].
    apply Qeq_bool_iff in E1. apply Z.ltb_lt in E2. destruct Hx; [tauto | lia].
  - eexists. split; [reflexivity | apply Qred_correct].
Qed.

Lemma pow_integral3 (leapct : tomographicModels.t) (x1 x2 x3 : Q) (n : Z) :
  integral_power leapct -> (0 <= n)%Z ->
  exists y1 y2 y3,
    tomographicModels.pow leapct [x1; x2; x3] (inject_Z n) = Ok [y1; y2; y3] /\
    y1 == Qpower x1 n /\ y2 == Qpower x2 n /\ y3 == Qpower x3 n.
Proof.
  intros Hp Hn.
  destruct (pow_integral leapct [x1; x2; x3] n Hp) as [t [Ht Hall]];
    [apply List.Forall_forall; intros; right; exact Hn |].
  inversion Hall as [| ? y1 ? ? H1 Hall1]; subst.
  inversion Hall1 as [| ? y2 ? ? H2 Hall2]; subst.
  inversion Hall2 as [| ? y3 ? ? H3 Hall3]; subst.
  inversion Hall3; subst. exists y1, y2, y3. auto.
Qed.

(** C6.  [LpNorm] with [p = 2], [weight = 0.5] and no prior, at
    [f = [1, -1, 2]]: the cost is 3, the gradient is [[1, -1, 2]], the
    quadratic form along [d = [1, 1, 1]] is 3, and the step of the generic
    [apply], [sum(g**2) / quadForm(f, g)] for the gradient [g], is 1. *)
Theorem LpNorm_reference_case (leapct : tomographicModels.t) :
  integral_power leapct ->
  (exists c, LpNorm.cost (LpNorm.init leapct 2 (1 # 2) None) [1; -1; 2] = Ok (Some c) /\
             c == 3) /\
  (exists g, LpNorm.gradient (LpNorm.init leapct 2 (1 # 2) None) [1; -1; 2] = Ok (Some g) /\
             veq g [1; -1; 2]) /\
  (exists q, LpNorm.quadForm (LpNorm.init leapct 2 (1 # 2) None) [1; -1; 2] [1; 1; 1]
             = Ok (Some q) /\ q == 3) /\
  (exists g denom,
     LpNorm.gradient (LpNorm.init leapct 2 (1 # 2) None) [1; -1; 2] = Ok (Some g) /\
     LpNorm.quadForm (LpNorm.init leapct 2 (1 # 2) None) [1; -1; 2] g = Ok (Some denom) /\
     1 # 10000000000000000 < denom /\
     denoisingFilter.stepSize (tomographicModels.sum (vsquare g)) denom == 1).
Proof.
  intros Hp.
  destruct (pow_integral3 leapct (Qabs 1) (Qabs (-1)) (Qabs 2) 2 Hp ltac:(lia))
    as (a1 & a2 & a3 & Ha & Ha1 & Ha2 & Ha3).
  destruct (pow_integral3 leapct (Qabs 1) (Qabs (-1)) (Qabs 2) 1 Hp ltac:(lia))
    as (b1 & b2 & b3 & Hb & Hb1 & Hb2 & Hb3).
  destruct (pow_integral3 leapct (Qabs 1) (Qabs (-1)) (Qabs 2) 0 Hp ltac:(lia))
    as (c1 & c2 & c3 & Hc & Hc1 & Hc2 & Hc3).
  assert (Hcost : LpNorm.cost (LpNorm.init leapct 2 (1 # 2) None) [1; -1; 2]
                  = Ok (Some ((1 # 2) * tomographicModels.sum [a1; a2; a3]))).
  { unfold LpNorm.cost, LpNorm.init. cbn [LpNorm.f_0 LpNorm.p LpNorm.leapct LpNorm.weight].
    change (py_max 0 2) with (inject_Z 2).
    change (tomographicModels.abs [1; -1; 2]) with [Qabs 1; Qabs (-1); Qabs 2].
    rewrite Ha. reflexivity. }
  assert (Hgrad : LpNorm.gradient (LpNorm.init leapct 2 (1 # 2) None) [1; -1; 2]
                  = Ok (Some (vmul (vscale ((1 # 2) * 2) (tomographicModels.sign [1; -1; 2]))
                                [b1; b2; b3]))).
  { unfold LpNorm.gradient, LpNorm.init.
    unfold tomographicModels.copyData.
    cbn [LpNorm.f_0 LpNorm.p LpNorm.leapct LpNorm.weight].
    change (py_max 0 2 - 1) with (inject_Z 1).
    change (tomographicModels.abs [1; -1; 2]) with [Qabs 1; Qabs (-1); Qabs 2].
    rewrite Hb. reflexivity. }
  assert (Hquad : forall d, LpNorm.quadForm (LpNorm.init leapct 2 (1 # 2) None) [1; -1; 2] d
                  = Ok (Some ((1 # 2) * 2 * tomographicModels.innerProd [c1; c2; c3] d d))).
  { intros d. unfold LpNorm.quadForm, LpNorm.init.
    unfold tomographicModels.copyData.
    cbn [LpNorm.f_0 LpNorm.p LpNorm.leapct LpNorm.weight].
    change (py_max 0 2 - 2) with (inject_Z 0).
    change (eq_zero [1; -1; 2]) with [false; false; false].
    change (tomographicModels.abs (mask_set [1; -1; 2] [false; false; false] 1))
      with [Qabs 1; Qabs (-1); Qabs 2].
    rewrite Hc. reflexivity. }
  split; [| split; [| split]].
  - eexists. split; [exact Hcost |].
    cbn [tomographicModels.sum fold_left]. rewrite Ha1, Ha2, Ha3. reflexivity.
  - eexists. split; [exact Hgrad |].
    cbn [vmul vscale tomographicModels.sign map zip_with].
    repeat constructor; [rewrite Hb1 | rewrite Hb2 | rewrite Hb3]; reflexivity.
  - eexists. split; [apply Hquad |].
    cbn [tomographicModels.innerProd tomographicModels.sum vmul zip_with fold_left].
    rewrite Hc1, Hc2, Hc3. reflexivity.
  - eexists. eexists. split; [exact Hgrad |]. split; [apply Hquad |].
    cbn [tomographicModels.innerProd tomographicModels.sum tomographicModels.sign
         vmul vscale vsquare map zip_with fold_left].
    unfold denoisingFilter.stepSize.
    rewrite Hb1, Hb2, Hb3, Hc1, Hc2, Hc3. split; reflexivity.
Qed.

(** C6 on the exact engine. *)
Lemma LpNorm_reference_case_witness :
  (exists c, LpNorm.cost sample_LpNorm [1; -1; 2] = Ok (Some c) /\ c == 3) /\
  (exists g, LpNorm.gradient sample_LpNorm [1; -1; 2] = Ok (Some g) /\
             veq g [1; -1; 2]) /\
  (exists q, LpNorm.quadForm sample_LpNorm [1; -1; 2] [1; 1; 1] = Ok (Some q) /\ q == 3) /\
  (exists g denom,
     LpNorm.gradient sample_LpNorm [1; -1; 2] = Ok (Some g) /\
     LpNorm.quadForm sample_LpNorm [1; -1; 2] g = Ok (Some denom) /\
     1 # 10000000000000000 < denom /\
     denoisingFilter.stepSize (tomographicModels.sum (vsquare g)) denom == 1).
Proof. exact (LpNorm_reference_case exact_engine exact_engine_integral_power). Defined.

(** ** The zero guard of the quadratic forms *)

Lemma Qabs_nonzero (x : Q) : ~ x == 0 -> ~ Qabs x == 0.
Proof.
  intros Hx H. apply Hx.
  assert (Hle : Qabs x <= 0) by lra.
  apply Qabs_Qle_condition in Hle. lra.
Qed.

Lemma guarded_pow (leapct : tomographicModels.t) (e : Q) (base : volume) :
  (forall x, ~ x == 0 -> exists y, tomographicModels.power leapct x e = Some y) ->
  exists t,
    tomographicModels.pow leapct
      (tomographicModels.abs (mask_set base (eq_zero base) 1)) e = Ok t /\
    guarded_weights leapct e base (mask_set t (eq_zero base) 0).
Proof.
  intros Hfin. unfold tomographicModels.pow, tomographicModels.abs, mask_set, eq_zero,
    guarded_weights.
  induction base as [| x base [t [Ht Hw]]]; cbn [map zip_with mapM].
  - exists []. split; [reflexivity | constructor].
  - rewrite Ht. destruct (Qeq_bool x 0) eqn:E.
    + destruct (Hfin (Qabs 1)) as [y Hy]; [discriminate |].
      rewrite Hy. cbn [rbind]. exists (y :: t). split; [reflexivity |].
      cbn [zip_with]. constructor; [now rewrite E | exact Hw].
    + destruct (Hfin (Qabs x)) as [y Hy].
      { apply Qabs_nonzero. intros H. apply Qeq_bool_iff in H. congruence. }
      rewrite Hy. cbn [rbind]. exists (y :: t). split; [reflexivity |].
      cbn [zip_with]. constructor; [now rewrite E | exact Hw].
Qed.

Lemma guarded_weights_zero (leapct : tomographicModels.t) (e : Q) (base w d : volume)
    (i : nat) (x t : Q) :
  guarded_weights leapct e base w ->
  base !! i = Some x -> x == 0 -> vmul (vmul w d) d !! i = Some t -> t == 0.
Proof.
  unfold guarded_weights, vmul. intros Hw. revert d i.
  induction Hw as [| x0 y base w Hxy _ IH]; intros d i Hx Hz Ht; [discriminate |].
  destruct d as [| d0 d]; [discriminate |]. destruct i as [| i]; simpl in Hx, Ht.
  - injection Hx as ->. injection Ht as <-.
    apply Qeq_bool_iff in Hz. rewrite Hz in Hxy. subst y. ring.
  - exact (IH d i Hx Hz Ht).
Qed.



Lemma exact_engine_reciprocal (x : Q) :
  ~ x == 0 -> exists y, tomographicModels.power exact_engine x (1 - 2) = Some y.
Proof.
  intros Hx. destruct (exact_engine_integral_power x (-1)%Z (or_introl Hx)) as [y [Hy _]].
  exists y. exact Hy.
Qed.


(** ** [filterSequence.apply] *)

Lemma fold_stages_Raise (fs : list denoisingFilter.t) (f : ref) (e : exn) :
  fold_left (fun acc flt => h' <-- acc ; stage flt f h') fs (Raise e) = Raise e.
Proof. induction fs as [| flt fs IH]; simpl; [reflexivity | exact IH]. Qed.

Lemma apply_loop_stages (fs : list denoisingFilter.t) (f : ref) (h : heap) :
  filterSequence.apply_loop fs f h = (h' <-- run_stages fs f h ; Ok (tt, h')).
Proof.
  unfold run_stages. revert h. induction fs as [| flt fs IH]; intros h; [reflexivity |].
  cbn [filterSequence.apply_loop fold_left rbind]. unfold bind at 1.
  assert (Hst : stage flt f h = match denoisingFilter.call_apply flt f h with
                                | Ok (_, h1) => Ok h1
                                | Raise e => Raise e
                                end).
  { unfold stage. destruct (denoisingFilter.call_apply flt f h) as [[r h1] | e]; reflexivity. }
  rewrite Hst. destruct (denoisingFilter.call_apply flt f h) as [[r h1] | e].
  - apply IH.
  - now rewrite fold_stages_Raise.
Qed.

Lemma generic_apply_eval (self : denoisingFilter.t) (f : ref) (h : heap)
    (fv g : volume) (denom : Q) :
  denoisingFilter.isDifferentiable self = true ->
  h !! f = Some fv ->
  denoisingFilter.call_gradient self fv = Ok (Some g) ->
  denoisingFilter.call_quadForm self fv g = Ok (Some denom) ->
  denoisingFilter.apply self f h
  = if Qle_bool denom (1 # 10000000000000000) then Ok (Some f, h)
    else Ok (Some f,
             <[f := vsub fv (vscale (tomographicModels.sum (vsquare g) / denom) g)]> h).
Proof.
  intros Hd Hf Hg Hq. unfold denoisingFilter.apply. rewrite Hd.
  rewrite (bind_read _ _ _ _ _ Hf).
  rewrite (bind_lift_Ok _ _ _ g) by (rewrite Hg; reflexivity).
  rewrite (bind_lift_Ok _ _ _ denom) by (rewrite Hq; reflexivity).
  destruct (Qle_bool denom (1 # 10000000000000000)); [reflexivity |].
  now rewrite (bind_write _ _ _ _ _ _ Hf).
Qed.

Lemma inplace_eval (k : volume -> volume) (f : ref) (h : heap) (v : volume) :
  h !! f = Some v -> tomographicModels.inplace k f h = Ok (f, <[f := k v]> h).
Proof.
  intros Hf. unfold tomographicModels.inplace.
  rewrite (bind_read _ _ _ _ _ Hf), (bind_write _ _ _ _ _ _ Hf). reflexivity.
Qed.

Lemma kernel_apply_eval (k : volume -> volume) (f : ref) (h : heap) (v : volume) :
  h !! f = Some v ->
  (x <- tomographicModels.inplace k f ;; ret (Some x)) h = Ok (Some f, <[f := k v]> h).
Proof. intros Hf. unfold bind. now rewrite (inplace_eval k f h v Hf). Qed.

(** A stage does to the heap what [stage_effect] says. *)
Lemma stage_effect_run (flt : denoisingFilter.t) (v v' : volume) :
  stage_effect flt v v' ->
  forall (f : ref) (h : heap), h !! f = Some v ->
  exists r, denoisingFilter.call_apply flt f h = Ok (r, <[f := v']> h).
Proof.
  induction 1 as [s v | s v | s v | s v H0 | flt v Hov Hd | flt v g denom Hov Hd Hg Hq Hden
                  | flt v g denom Hov Hd Hg Hq Hden | s v v' H0 _ IH];
    intros f h Hf.
  - exists (Some f). unfold denoisingFilter.call_apply.
    cbn [BlurFilter.object denoisingFilter.apply_override].
    unfold BlurFilter.apply, tomographicModels.BlurFilter.
    exact (kernel_apply_eval _ f h v Hf).
  - exists (Some f). unfold denoisingFilter.call_apply.
    cbn [BilateralFilter.object denoisingFilter.apply_override].
    unfold BilateralFilter.apply, tomographicModels.BilateralFilter.
    exact (kernel_apply_eval _ f h v Hf).
  - exists (Some f). unfold denoisingFilter.call_apply.
    cbn [MedianFilter.object denoisingFilter.apply_override].
    unfold MedianFilter.apply, tomographicModels.MedianFilter.
    exact (kernel_apply_eval _ f h v Hf).
  - eexists. unfold denoisingFilter.call_apply.
    cbn [TV.object denoisingFilter.apply_override].
    apply (TV_apply_without_prior s f h v H0 Hf).
  - exists None. unfold denoisingFilter.call_apply. rewrite Hov.
    unfold denoisingFilter.apply. rewrite Hd, (list_insert_id h f v Hf). reflexivity.
  - exists (Some f). unfold denoisingFilter.call_apply. rewrite Hov.
    rewrite (generic_apply_eval flt f h v g denom Hd Hf Hg Hq).
    apply Qle_bool_iff in Hden. rewrite Hden, (list_insert_id h f v Hf). reflexivity.
  - exists (Some f). unfold denoisingFilter.call_apply. rewrite Hov.
    rewrite (generic_apply_eval flt f h v g denom Hd Hf Hg Hq).
    apply Qle_bool_false_iff in Hden. rewrite Hden. reflexivity.
  - destruct (IH f h Hf) as [r Hr]. exists r.
    unfold denoisingFilter.call_apply in *.
    cbn [LpNorm.object LpNorm.super denoisingFilter.apply_override] in *.
    unfold LpNorm.apply. rewrite H0. exact Hr.
Qed.

Lemma stages_effect_run (fs : list denoisingFilter.t) (v v' : volume) :
  stages_effect fs v v' ->
  forall (f : ref) (h : heap), h !! f = Some v ->
  filterSequence.apply_loop fs f h = Ok (tt, <[f := v']> h).
Proof.
  induction 1 as [v | flt fs v v1 v2 Hst _ IH]; intros f h Hf.
  - cbn [filterSequence.apply_loop]. unfold ret. now rewrite (list_insert_id h f v Hf).
  - cbn [filterSequence.apply_loop]. unfold bind.
    destruct (stage_effect_run flt v v1 Hst f h Hf) as [r ->].
    assert (Hlt : (f < length h)%nat) by (eapply lookup_lt_Some; exact Hf).
    rewrite (IH f (<[f := v1]> h)) by (apply list_lookup_insert_eq; exact Hlt).
    now rewrite list_insert_insert_eq.
Qed.

(** C8.  [filterSequence.apply(f)] runs the [apply] of every filter of the
    list, in list order, each on the volume as the previous one left it,
    and returns [f]; neither [beta] nor the flag [isDifferentiable] nor the
    weight of a filter is looked at: the array ends holding what the
    kernels of the smoothers and of [TV] and the steps of the inheriting
    filters make of it, one after the other. *)
Theorem filterSequence_apply_every_filter :
  (forall (self : filterSequence.t) (f : ref) (h : heap),
     filterSequence.apply self f h
     = (h' <-- run_stages (filterSequence.filters self) f h ; Ok (f, h'))) /\
  (forall (fs : list denoisingFilter.t) (beta beta' : Q) (f : ref) (h : heap),
     filterSequence.apply {| filterSequence.filters := fs; filterSequence.beta := beta |} f h
     = filterSequence.apply {| filterSequence.filters := fs; filterSequence.beta := beta' |} f h) /\
  (forall (self : filterSequence.t) (f : ref) (h : heap) (v v' : volume),
     h !! f = Some v ->
     stages_effect (filterSequence.filters self) v v' ->
     filterSequence.apply self f h = Ok (f, <[f := v']> h)).
Proof.
  split; [| split].
  - intros self f h. unfold filterSequence.apply, bind. rewrite apply_loop_stages.
    destruct (run_stages (filterSequence.filters self) f h); reflexivity.
  - reflexivity.
  - intros self f h v v' Hf Hst. unfold filterSequence.apply, bind.
    now rewrite (stages_effect_run _ v v' Hst f h Hf).
Qed.

(** C8 with [beta = 0] on a blur filter that is not differentiable, a [TV]
    of weight 0 and an [LpNorm] of weight 0: the volume is smoothed twice
    and then left alone by the flat step. *)
Lemma filterSequence_apply_every_filter_witness :
  filterSequence.apply (sample_stages 0) 0%nat [[0; 4; 8]]
  = Ok (0%nat, <[0%nat := smooth (smooth [0; 4; 8])]> [[0; 4; 8]]) /\
  veq (smooth (smooth [0; 4; 8])) [4; 7; 8].
Proof.
  split; [| repeat constructor].
  apply (proj2 (proj2 filterSequence_apply_every_filter) (sample_stages 0) 0%nat
           [[0; 4; 8]] [0; 4; 8] (smooth (smooth [0; 4; 8])) eq_refl).
  unfold sample_stages, filterSequence.append, filterSequence.init.
  cbn [filterSequence.filters app].
  eapply stages_cons; [apply effect_BlurFilter |].
  eapply stages_cons; [apply effect_TV; reflexivity |].
  eapply stages_cons; [| apply stages_nil].
  apply effect_LpNorm; [reflexivity |].
  eapply effect_flat;
    [reflexivity | reflexivity | vm_compute; reflexivity | vm_compute; reflexivity |
     vm_compute; discriminate].
Defined.

(** ** Norm orders kept by the constructors *)

Lemma py_max_Qmax (a b : Q) : py_max a b == Qmax a b.
Proof.
  unfold py_max. destruct (Qgt_bool b a) eqn:E.
  - apply Qgt_bool_true_iff in E. symmetry. apply Q.max_r. lra.
  - apply Qgt_bool_false_iff in E. symmetry. apply Q.max_l. exact E.
Qed.

(** C10.  [LpNorm] stores [max(0, p)], which is at least 0, and [TV] stores
    [max(0.01, p)], which is at least 0.01, whatever [p] they are given;
    [azimuthalFilter], which raises to the same powers [p - 1] and [p - 2],
    assigns [self.p = p] without the clamp:
    [azimuthalFilter(leapct, FWHM=1, p=-1)] keeps the order -1. *)
Theorem azimuthalFilter_order_not_clamped :
  (forall (leapct : tomographicModels.t) (p weight : Q) (f_0 : option volume),
     0 <= LpNorm.p (LpNorm.init leapct p weight f_0) /\
     LpNorm.p (LpNorm.init leapct p weight f_0) == Qmax 0 p) /\
  (forall (leapct : tomographicModels.t) (delta p weight : Q) (f_0 : option volume),
     1 # 100 <= TV.p (TV.init leapct delta p weight f_0) /\
     TV.p (TV.init leapct delta p weight f_0) == Qmax (1 # 100) p) /\
  LpNorm.p (LpNorm.init exact_engine (-1) 1 None) == 0 /\
  azimuthalFilter.p (azimuthalFilter.init exact_engine 1 (-1) 1) = -1 /\
  ~ 0 <= azimuthalFilter.p (azimuthalFilter.init exact_engine 1 (-1) 1).
Proof.
  split; [| split; [| split; [| split]]].
  - intros leapct p weight f_0. cbn [LpNorm.init LpNorm.p].
    split; [rewrite py_max_Qmax; apply Q.le_max_l | apply py_max_Qmax].
  - intros leapct delta p weight f_0. cbn [TV.init TV.p].
    split; [rewrite py_max_Qmax; apply Q.le_max_l | apply py_max_Qmax].
  - reflexivity.
  - reflexivity.
  - intros H. apply H. reflexivity.
Qed.

(** ** The targets of [histogramSparsity] *)

Lemma Qin_cons (x y : Q) (l : list Q) : Qin x (y :: l) <-> x == y \/ Qin x l.
Proof. unfold Qin. apply Exists_cons. Qed.

Lemma Qin_nil (x : Q) : ~ Qin x [].
Proof. unfold Qin. intros H. inversion H. Qed.

Lemma Qin_app (x : Q) (l k : list Q) : Qin x (l ++ k) <-> Qin x l \/ Qin x k.
Proof. unfold Qin. apply Exists_app. Qed.

Lemma Qin_In (x : Q) (l : list Q) : Qin x l <-> exists y, In y l /\ x == y.
Proof. unfold Qin. apply List.Exists_exists. Qed.

Lemma Qin_Qeq (x y : Q) (l : list Q) : x == y -> Qin x l -> Qin y l.
Proof.
  intros Hxy H. apply Qin_In in H. destruct H as [z [Hz Hxz]].
  apply Qin_In. exists z. split; [exact Hz | now rewrite <- Hxy].
Qed.

Lemma insert_sorted_Qin (x y : Q) (l : list Q) :
  Qin x (insert_sorted y l) <-> x == y \/ Qin x l.
Proof.
  induction l as [| z l IH]; simpl.
  - apply Qin_cons.
  - destruct (Qle_bool y z).
    + apply Qin_cons.
    + rewrite !Qin_cons, IH. tauto.
Qed.

Lemma np_sort_Qin (x : Q) (l : list Q) : Qin x (np_sort l) <-> Qin x l.
Proof.
  unfold np_sort. induction l as [| y l IH]; simpl; [reflexivity |].
  rewrite insert_sorted_Qin, Qin_cons, IH. reflexivity.
Qed.

Lemma insert_sorted_sorted (x : Q) (l : list Q) :
  StronglySorted Qle l -> StronglySorted Qle (insert_sorted x l).
Proof.
  induction 1 as [| y l Hl IH Hy]; simpl.
  - constructor; constructor.
  - destruct (Qle_bool x y) eqn:E.
    + apply Qle_bool_iff in E. constructor; [constructor; assumption |].
      constructor; [exact E |].
      eapply List.Forall_impl; [| exact Hy]. intros z Hz. simpl in Hz. lra.
    + apply Qle_bool_false_iff in E. constructor; [exact IH |].
      apply List.Forall_forall. intros z Hz.
      assert (Hq : Qin z (insert_sorted x l)) by (apply Qin_In; exists z; split; [exact Hz | reflexivity]).
      apply insert_sorted_Qin in Hq. destruct Hq as [Hq | Hq]; [lra |].
      apply Qin_In in Hq. destruct Hq as [w [Hw Hzw]].
      rewrite List.Forall_forall in Hy. specialize (Hy w Hw). lra.
Qed.

Lemma np_sort_sorted (l : list Q) : StronglySorted Qle (np_sort l).
Proof.
  unfold np_sort. induction l as [| x l IH]; simpl; [constructor |].
  apply insert_sorted_sorted, IH.
Qed.

Lemma drop_repeats_spec (prev : Q) (l : list Q) :
  StronglySorted Qle (prev :: l) ->
  StronglySorted Qlt (prev :: drop_repeats prev l) /\
  (forall x, Qin x (prev :: drop_repeats prev l) <-> Qin x (prev :: l)).
Proof.
  revert prev. induction l as [| y l IH]; intros prev Hs; simpl.
  - split; [constructor; constructor | reflexivity].
  - inversion Hs as [| ? ? Hs' Hall]; subst.
    inversion Hall as [| ? ? Hpy Hall']; subst.
    destruct (Qeq_bool prev y) eqn:E.
    + apply Qeq_bool_iff in E.
      assert (Hs2 : StronglySorted Qle (prev :: l)).
      { constructor; [inversion Hs'; assumption | exact Hall']. }
      destruct (IH prev Hs2) as [IH1 IH2]. split; [exact IH1 |].
      intros x. rewrite IH2, !Qin_cons. rewrite E. tauto.
    + assert (Hlt : prev < y).
      { destruct (Qeq_bool prev y) eqn:E'; [discriminate |].
        assert (~ prev == y) by (intros H; apply Qeq_bool_iff in H; congruence). lra. }
      destruct (IH y Hs') as [IH1 IH2]. split.
      * constructor; [exact IH1 |].
        inversion IH1 as [| ? ? _ Hally]; subst.
        constructor; [exact Hlt |].
        eapply List.Forall_impl; [| exact Hally]. intros z Hz. simpl in Hz. lra.
      * intros x. rewrite Qin_cons, IH2, !Qin_cons. tauto.
Qed.

Lemma np_unique_spec (l : list Q) :
  StronglySorted Qlt (np_unique l) /\ (forall x, Qin x (np_unique l) <-> Qin x l).
Proof.
  unfold np_unique. pose proof (np_sort_sorted l) as Hs. pose proof (np_sort_Qin) as Hin.
  destruct (np_sort l) as [| x l'] eqn:E.
  - split; [constructor |]. intros x. rewrite <- (Hin x l), E. reflexivity.
  - destruct (drop_repeats_spec x l' Hs) as [H1 H2]. split; [exact H1 |].
    intros z. rewrite H2, <- (Hin z l), E. reflexivity.
Qed.

Lemma np_sort_strictly_sorted (l : list Q) : StronglySorted Qlt l -> np_sort l = l.
Proof.
  unfold np_sort. induction 1 as [| x l Hl IH Hx]; simpl; [reflexivity |].
  rewrite IH. destruct l as [| y l]; [reflexivity |]. simpl.
  inversion Hx as [| ? ? Hxy _]; subst.
  assert (E : Qle_bool x y = true) by (apply Qle_bool_iff; lra).
  now rewrite E.
Qed.

Lemma with_zero_Qin (mus : list Q) (x : Q) :
  Qin x (with_zero mus) <-> Qin x mus \/ x == 0.
Proof.
  unfold with_zero. destruct (existsb (fun m => Qeq_bool m 0) mus) eqn:E.
  - split; [tauto |]. intros [H | H]; [exact H |].
    apply existsb_exists in E. destruct E as [m [Hm Hm0]].
    apply Qeq_bool_iff in Hm0. apply Qin_In. exists m. split; [exact Hm | lra].
  - rewrite Qin_app, Qin_cons. pose proof (Qin_nil x). tauto.
Qed.

Lemma np_unique_length (l : list Q) : (length (np_unique l) <= length l)%nat.
Proof.
  assert (Hd : forall p k, (length (drop_repeats p k) <= length k)%nat).
  { intros p k. revert p. induction k as [| y k IH]; intros p; simpl; [lia |].
    destruct (Qeq_bool p y); simpl; [specialize (IH p) | specialize (IH y)]; lia. }
  assert (Hi : forall x k, length (insert_sorted x k) = S (length k)).
  { intros x k. induction k as [| y k IH]; simpl; [reflexivity |].
    destruct (Qle_bool x y); simpl; lia. }
  assert (Hs : length (np_sort l) = length l).
  { unfold np_sort. induction l as [| x l IH]; simpl; [reflexivity |]. rewrite Hi. lia. }
  unfold np_unique. rewrite <- Hs. destruct (np_sort l) as [| x k]; simpl; [lia |].
  specialize (Hd x k). lia.
Qed.

Lemma two_targets (l : list Q) (x y : Q) :
  Qin x l -> Qin y l -> ~ x == y -> (2 <= length l)%nat.
Proof.
  intros Hx Hy Hxy. destruct l as [| a [| b l]]; simpl; [| | lia].
  - now apply Qin_nil in Hx.
  - apply Qin_cons in Hx, Hy. pose proof (Qin_nil x). pose proof (Qin_nil y).
    destruct Hx as [Hx | Hx]; [| tauto]. destruct Hy as [Hy | Hy]; [| tauto].
    exfalso. apply Hxy. lra.
Qed.

Lemma adjacent_gaps_cons (x y : Q) (l : list Q) :
  adjacent_gaps (x :: y :: l) = Qabs (y - x) :: adjacent_gaps (y :: l).
Proof. reflexivity. Qed.

Lemma adjacent_gaps_lookup (l : list Q) (k : nat) (a b : Q) :
  l !! k = Some a -> l !! S k = Some b -> adjacent_gaps l !! k = Some (Qabs (b - a)).
Proof.
  intros Ha Hb. unfold adjacent_gaps. rewrite lookup_zip_with.
  destruct l as [| x l]; [discriminate |]. simpl in *.
  change (l !! k) with (l !! k) in Hb. rewrite Hb. simpl. rewrite Ha. reflexivity.
Qed.

Lemma adjacent_gaps_length (l : list Q) : length (adjacent_gaps l) = (length l - 1)%nat.
Proof.
  unfold adjacent_gaps. rewrite length_zip_with. destruct l; simpl; lia.
Qed.

(** The loop of the constructor folds [min] over the gaps of neighbours. *)
Lemma gap_loop_fold (l : list Q) (m k : nat) (acc : Q) :
  (S k + m <= length l)%nat ->
  histogramSparsity.gap_loop l (seq (S k) m) acc
  = Ok (fold_left py_min (take m (drop k (adjacent_gaps l))) acc).
Proof.
  revert k acc. induction m as [| m IH]; intros k acc Hlen; [reflexivity |].
  cbn [seq histogramSparsity.gap_loop].
  destruct (lookup_lt_is_Some_2 l (S k)) as [b Hb]; [lia |].
  destruct (lookup_lt_is_Some_2 l k) as [a Ha]; [lia |].
  unfold index. rewrite Hb. cbn [rbind].
  replace (S k - 1)%nat with k by lia. rewrite Ha. cbn [rbind].
  rewrite IH by lia.
  rewrite (drop_S _ (Qabs (b - a)) k) by (apply adjacent_gaps_lookup; assumption).
  reflexivity.
Qed.

Lemma py_min_cases (a b : Q) : (py_min a b = a /\ a <= b) \/ (py_min a b = b /\ b < a).
Proof.
  unfold py_min. destruct (Qgt_bool a b) eqn:E.
  - apply Qgt_bool_true_iff in E. right. auto.
  - apply Qgt_bool_false_iff in E. left. auto.
Qed.

Lemma fold_py_min (gs : list Q) (acc : Q) :
  (fold_left py_min gs acc = acc \/ In (fold_left py_min gs acc) gs) /\
  fold_left py_min gs acc <= acc /\
  Forall (fun g => fold_left py_min gs acc <= g) gs.
Proof.
  revert acc. induction gs as [| g gs IH]; intros acc; simpl.
  - split; [left; reflexivity |]. split; [lra | constructor].
  - destruct (IH (py_min acc g)) as (H1 & H2 & H3).
    destruct (py_min_cases acc g) as [[E Hle] | [E Hlt]]; rewrite E in *.
    + split; [tauto |]. split; [exact H2 |]. constructor; [lra | exact H3].
    + split; [destruct H1 as [H1 | H1]; [rewrite H1 |]; tauto |].
      split; [lra |]. constructor; [exact H2 | exact H3].
Qed.

Lemma gaps_are_differences (l : list Q) :
  StronglySorted Qlt l ->
  forall g, In g (adjacent_gaps l) ->
  exists a b, In a l /\ In b l /\ a < b /\ g == b - a.
Proof.
  induction 1 as [| x l Hl IH Hx]; intros g Hg; [destruct Hg |].
  destruct l as [| y l]; [destruct Hg |].
  rewrite adjacent_gaps_cons in Hg. destruct Hg as [Hg | Hg].
  - inversion Hx as [| ? ? Hxy _]; subst. exists x, y.
    split; [left; reflexivity |]. split; [right; left; reflexivity |].
    split; [exact Hxy |]. apply Qabs_pos. lra.
  - destruct (IH g Hg) as (a & b & Ha & Hb & Hab & Hgab).
    exists a, b. split; [right; exact Ha |]. split; [right; exact Hb |]. auto.
Qed.

Lemma gaps_bound (l : list Q) :
  StronglySorted Qlt l ->
  forall a b, Qin a l -> Qin b l -> a < b ->
  exists g, In g (adjacent_gaps l) /\ g <= b - a.
Proof.
  induction 1 as [| x l Hl IH Hx]; intros a b Ha Hb Hab; [now apply Qin_nil in Ha |].
  assert (Hmin : forall z, Qin z l -> x < z).
  { intros z Hz. apply Qin_In in Hz. destruct Hz as [w [Hw Hzw]].
    rewrite List.Forall_forall in Hx. specialize (Hx w Hw). lra. }
  apply Qin_cons in Ha, Hb.
  destruct Hb as [Hb | Hb]; [destruct Ha as [Ha | Ha]; [lra | specialize (Hmin a Ha); lra] |].
  destruct l as [| y l]; [now apply Qin_nil in Hb |].
  rewrite adjacent_gaps_cons.
  destruct Ha as [Ha | Ha].
  - exists (Qabs (y - x)). split; [left; reflexivity |].
    assert (Hxy : x < y) by (apply Hmin, Qin_cons; left; reflexivity).
    assert (Hyb : y <= b).
    { apply Qin_cons in Hb. destruct Hb as [Hb | Hb]; [lra |].
      inversion Hl as [| ? ? _ Hy]; subst.
      apply Qin_In in Hb. destruct Hb as [w [Hw Hbw]].
      rewrite List.Forall_forall in Hy. specialize (Hy w Hw). lra. }
    rewrite Qabs_pos by lra. lra.
  - destruct (IH a b Ha Hb Hab) as [g [Hg Hle]].
    exists g. split; [right; exact Hg | exact Hle].
Qed.

Lemma sorted_lookup_lt (l : list Q) :
  StronglySorted Qlt l ->
  forall i j a b, (i < j)%nat -> l !! i = Some a -> l !! j = Some b -> a < b.
Proof.
  induction 1 as [| x l Hl IH Hx]; intros i j a b Hij Ha Hb; [discriminate |].
  destruct j as [| j]; [lia |]. simpl in Hb.
  destruct i as [| i]; simpl in Ha.
  - injection Ha as <-. rewrite List.Forall_forall in Hx. apply Hx.
    apply list_elem_of_In. eapply list_elem_of_lookup_2. exact Hb.
  - apply (IH i j); [lia | assumption | assumption].
Qed.

Lemma midpoint_not_target (l : list Q) (x mu : Q) :
  StronglySorted Qlt l -> midpoint_of_adjacent l x -> Qin mu l -> ~ x == mu.
Proof.
  intros Hs (i & a & b & Ha & Hb & Hx) Hmu Heq.
  assert (Hab : a < b) by (apply (sorted_lookup_lt l Hs i (S i)); [lia | assumption | assumption]).
  assert (Hax : a < x) by (rewrite Hx; apply Qlt_shift_div_l; lra).
  assert (Hxb : x < b) by (rewrite Hx; apply Qlt_shift_div_r; lra).
  apply Qin_In in Hmu. destruct Hmu as [w [Hw Hmw]].
  apply list_elem_of_In, list_elem_of_lookup in Hw. destruct Hw as [j Hj].
  destruct (Nat.lt_trichotomy j i) as [Hlt | [-> | Hgt]].
  - pose proof (sorted_lookup_lt l Hs j i w a Hlt Hj Ha). lra.
  - rewrite Ha in Hj. injection Hj as <-. lra.
  - destruct (Nat.eq_dec j (S i)) as [-> | Hne].
    + rewrite Hb in Hj. injection Hj as <-. lra.
    + assert (Hlt : (S i < j)%nat) by lia.
      pose proof (sorted_lookup_lt l Hs (S i) j b w Hlt Hb Hj). lra.
Qed.

Lemma init_fallback (leapct : tomographicModels.t) (mus : list Q) (weight : Q) :
  (length (with_zero mus) <= 1)%nat ->
  histogramSparsity.init leapct mus weight
  = Ok {| histogramSparsity.leapct := leapct; histogramSparsity.weight := weight;
          histogramSparsity.isDifferentiable := true;
          histogramSparsity.mus := np_unique (with_zero mus);
          histogramSparsity.GemanParam := 1 # 100000 |}.
Proof.
  intros Hlen. unfold histogramSparsity.init. cbv zeta. fold (with_zero mus).
  rewrite (np_sort_strictly_sorted _ (proj1 (np_unique_spec (with_zero mus)))).
  destruct (1 <? length (with_zero mus))%nat eqn:E; [| reflexivity].
  apply Nat.ltb_lt in E. lia.
Qed.

Lemma init_gaps (leapct : tomographicModels.t) (mus : list Q) (weight : Q) :
  (1 < length (with_zero mus))%nat ->
  (2 <= length (np_unique (with_zero mus)))%nat ->
  exists g0 gs,
    adjacent_gaps (np_unique (with_zero mus)) = g0 :: gs /\
    histogramSparsity.init leapct mus weight
    = Ok {| histogramSparsity.leapct := leapct; histogramSparsity.weight := weight;
            histogramSparsity.isDifferentiable := true;
            histogramSparsity.mus := np_unique (with_zero mus);
            histogramSparsity.GemanParam :=
              (1 # 4) * fold_left py_min (g0 :: gs) g0 * fold_left py_min (g0 :: gs) g0 |}.
Proof.
  intros Hlen Hu. unfold histogramSparsity.init. cbv zeta. fold (with_zero mus).
  rewrite (np_sort_strictly_sorted _ (proj1 (np_unique_spec (with_zero mus)))).
  apply Nat.ltb_lt in Hlen. rewrite Hlen.
  pose proof (gap_loop_fold (np_unique (with_zero mus))
                (length (np_unique (with_zero mus)) - 1) 0) as Hloop.
  pose proof (adjacent_gaps_length (np_unique (with_zero mus))) as Hgl.
  destruct (np_unique (with_zero mus)) as [| a [| b u]]; simpl in Hu; [lia | lia |].
  exists (Qabs (b - a)), (adjacent_gaps (b :: u)).
  split; [apply adjacent_gaps_cons |].
  change (index (a :: b :: u) 1) with (Ok b). change (index (a :: b :: u) 0) with (Ok a).
  cbn [rbind]. rewrite Hloop by (simpl; lia).
  rewrite drop_0, take_ge by lia. rewrite adjacent_gaps_cons. reflexivity.
Qed.

Lemma cost_loop_voxelwise (G : Q -> Q) (mus : list Q) (a : Q -> Q) (f : volume) :
  fold_left (fun curTerm mu => vmul curTerm (map G (vshift f mu))) mus (map a f)
  = map (fun x => fold_left (fun c mu => c * G (x - mu)) mus (a x)) f.
Proof.
  revert a. induction mus as [| mu mus IH]; intros a; cbn [fold_left]; [reflexivity |].
  replace (vmul (map a f) (map G (vshift f mu)))
    with (map (fun x => a x * G (x - mu)) f).
  - apply (IH (fun x => a x * G (x - mu))).
  - unfold vmul, vshift. clear. induction f as [| x f IHf]; [reflexivity |].
    cbn [map zip_with]. now rewrite IHf.
Qed.

Lemma histogramSparsity_cost_voxelwise (self : histogramSparsity.t) (f : volume) :
  histogramSparsity.cost self f
  = Ok (Some (histogramSparsity.weight self
              * tomographicModels.sum
                  (map (fun x => fold_left
                                   (fun c mu => c * histogramSparsity.Geman0 self (x - mu))
                                   (histogramSparsity.mus self) 1) f))).
Proof.
  unfold histogramSparsity.cost, tomographicModels.copyData, vfill.
  now rewrite cost_loop_voxelwise.
Qed.

Lemma Geman0_at_target (self : histogramSparsity.t) (x mu : Q) :
  x == mu -> histogramSparsity.Geman0 self (x - mu) == 0.
Proof.
  intros H. unfold histogramSparsity.Geman0.
  assert (Hz : x - mu == 0) by lra. rewrite Hz. unfold Qdiv. ring.
Qed.

Lemma Geman0_off_target (self : histogramSparsity.t) (z : Q) :
  0 < histogramSparsity.GemanParam self -> ~ z == 0 ->
  0 < histogramSparsity.Geman0 self z.
Proof.
  intros HG Hz. unfold histogramSparsity.Geman0.
  assert (Hzz : 0 < z * z) by nra.
  apply Qlt_shift_div_l; lra.
Qed.

Lemma product_zero_acc (F : Q -> Q) (l : list Q) (acc : Q) :
  acc == 0 -> fold_left (fun c mu => c * F mu) l acc == 0.
Proof.
  revert acc. induction l as [| mu l IH]; intros acc H; simpl; [exact H |].
  apply IH. rewrite H. ring.
Qed.

Lemma product_zero_factor (F : Q -> Q) (l : list Q) (acc : Q) :
  Exists (fun mu => F mu == 0) l -> fold_left (fun c mu => c * F mu) l acc == 0.
Proof.
  intros H. revert acc. induction H as [mu l Hmu | mu l _ IH]; intros acc; simpl.
  - apply product_zero_acc. rewrite Hmu. ring.
  - apply IH.
Qed.

Lemma product_positive (F : Q -> Q) (l : list Q) (acc : Q) :
  0 < acc -> Forall (fun mu => 0 < F mu) l -> 0 < fold_left (fun c mu => c * F mu) l acc.
Proof.
  intros Hacc H. revert acc Hacc. induction H as [| mu l Hmu _ IH]; intros acc Hacc; simpl.
  - exact Hacc.
  - apply IH. nra.
Qed.

Lemma sum_of_zeros (l : list Q) : Forall (fun y => y == 0) l -> tomographicModels.sum l == 0.
Proof.
  intros H. unfold tomographicModels.sum. rewrite fold_left_Qplus.
  induction H as [| y l Hy _ IH]; simpl; [ring |]. rewrite Hy. lra.
Qed.

Lemma sum_of_positives (l : list Q) :
  l <> [] -> Forall (fun y => 0 < y) l -> 0 < tomographicModels.sum l.
Proof.
  intros Hne H. unfold tomographicModels.sum. rewrite fold_left_Qplus.
  assert (Hnn : forall k, Forall (fun y => 0 < y) k -> 0 <= Qsum k).
  { induction 1 as [| y k Hy _ IH]; simpl; lra. }
  destruct H as [| y l Hy H]; [congruence |]. simpl. specialize (Hnn l H). lra.
Qed.

(** C9 as stated fails for [weight = 0]: the cost is 0 at a target and
    halfway between two targets alike. *)
Lemma histogramSparsity_zero_weight_cost :
  exists self ct cm,
    histogramSparsity.init exact_engine [1; 2] 0 = Ok self /\
    histogramSparsity.mus self = [0; 1; 2] /\
    histogramSparsity.cost self [1] = Ok (Some ct) /\
    histogramSparsity.cost self [3 # 2] = Ok (Some cm) /\
    ~ ct < cm.
Proof.
  eexists. eexists. eexists.
  split; [vm_compute; reflexivity |]. split; [reflexivity |].
  split; [vm_compute; reflexivity |]. split; [vm_compute; reflexivity |].
  vm_compute. discriminate.
Qed.

(** C9 (amended).  For a list [mus] with at most one element or with a
    nonzero element the constructor succeeds; its targets are strictly
    ascending (hence without repetition), contain 0 and are the values of
    [mus] together with 0; [GemanParam] is 1e-5 when there is one target and
    a quarter of the square of the smallest gap between two targets
    otherwise; with a positive weight the cost of a volume whose voxels are
    targets is 0 and strictly below the cost of a nonempty volume whose
    voxels lie halfway between neighbouring targets.  [mus = [1.0, 2.0]]
    gives the targets [[0.0, 1.0, 2.0]] and [GemanParam = 0.25]. *)
Theorem histogramSparsity_targets :
  (forall (leapct : tomographicModels.t) (mus : list Q) (weight : Q),
     (length mus <= 1)%nat \/ Exists (fun m => ~ m == 0) mus ->
     exists self,
       histogramSparsity.init leapct mus weight = Ok self /\
       histogramSparsity.weight self = weight /\
       StronglySorted Qlt (histogramSparsity.mus self) /\
       Qin 0 (histogramSparsity.mus self) /\
       (forall x, Qin x (histogramSparsity.mus self) <-> Qin x mus \/ x == 0) /\
       (length (histogramSparsity.mus self) = 1%nat ->
        histogramSparsity.GemanParam self = 1 # 100000) /\
       ((2 <= length (histogramSparsity.mus self))%nat ->
        exists a b,
          Qin a (histogramSparsity.mus self) /\ Qin b (histogramSparsity.mus self) /\
          a < b /\
          histogramSparsity.GemanParam self == (1 # 4) * (b - a) * (b - a) /\
          forall a' b',
            Qin a' (histogramSparsity.mus self) -> Qin b' (histogramSparsity.mus self) ->
            a' < b' -> b - a <= b' - a') /\
       (0 < weight ->
        forall f g : volume,
          Forall (fun x => Qin x (histogramSparsity.mus self)) f ->
          Forall (midpoint_of_adjacent (histogramSparsity.mus self)) g -> g <> [] ->
          exists cf cg,
            histogramSparsity.cost self f = Ok (Some cf) /\
            histogramSparsity.cost self g = Ok (Some cg) /\
            cf == 0 /\ cf < cg)) /\
  (forall (leapct : tomographicModels.t) (weight : Q),
     exists self,
       histogramSparsity.init leapct [1; 2] weight = Ok self /\
       histogramSparsity.mus self = [0; 1; 2] /\
       histogramSparsity.GemanParam self == 1 # 4).
Proof.
  split.
  2:{ intros leapct weight. eexists. split; [reflexivity |]. split; reflexivity. }
  intros leapct mus weight Hmus.
  destruct (np_unique_spec (with_zero mus)) as [Hsorted Hmem].
  assert (Hin : forall x, Qin x (np_unique (with_zero mus)) <-> Qin x mus \/ x == 0).
  { intros x. rewrite Hmem. apply with_zero_Qin. }
  assert (Hzero : Qin 0 (np_unique (with_zero mus))) by (apply Hin; right; reflexivity).
  (* the cost part, for any [self] with these targets and a positive [GemanParam] *)
  assert (Hcost : forall self,
            histogramSparsity.mus self = np_unique (with_zero mus) ->
            histogramSparsity.weight self = weight ->
            0 < histogramSparsity.GemanParam self ->
            0 < weight ->
            forall f g : volume,
              Forall (fun x => Qin x (histogramSparsity.mus self)) f ->
              Forall (midpoint_of_adjacent (histogramSparsity.mus self)) g -> g <> [] ->
              exists cf cg,
                histogramSparsity.cost self f = Ok (Some cf) /\
                histogramSparsity.cost self g = Ok (Some cg) /\
                cf == 0 /\ cf < cg).
  { intros self Hm Hw HG Hpos f g Hf Hg Hne.
    rewrite Hm in Hf, Hg.
    eexists. eexists.
    split; [apply histogramSparsity_cost_voxelwise |].
    split; [apply histogramSparsity_cost_voxelwise |].
    rewrite Hm, Hw.
    assert (Hcf : tomographicModels.sum
                    (map (fun x => fold_left
                                     (fun c mu => c * histogramSparsity.Geman0 self (x - mu))
                                     (np_unique (with_zero mus)) 1) f) == 0).
    { apply sum_of_zeros. apply List.Forall_map.
      eapply List.Forall_impl; [| exact Hf]. intros x Hx. simpl.
      apply (product_zero_factor (fun mu => histogramSparsity.Geman0 self (x - mu))).
      unfold Qin in Hx. eapply List.Exists_impl; [| exact Hx].
      intros mu Hxmu. simpl. now apply Geman0_at_target. }
    assert (Hcg : 0 < tomographicModels.sum
                    (map (fun x => fold_left
                                     (fun c mu => c * histogramSparsity.Geman0 self (x - mu))
                                     (np_unique (with_zero mus)) 1) g)).
    { apply sum_of_positives; [destruct g; [congruence | discriminate] |].
      apply List.Forall_map. eapply List.Forall_impl; [| exact Hg]. intros x Hx. simpl.
      apply (product_positive (fun mu => histogramSparsity.Geman0 self (x - mu)));
        [reflexivity |].
      apply List.Forall_forall. intros mu Hmu. apply Geman0_off_target; [exact HG |].
      intros Hz.
      apply (midpoint_not_target (np_unique (with_zero mus)) x mu Hsorted Hx).
      - apply Qin_In. exists mu. split; [exact Hmu | reflexivity].
      - lra. }
    split; [rewrite Hcf; ring |]. rewrite Hcf. nra. }
  destruct (le_lt_dec (length (with_zero mus)) 1) as [Hshort | Hlong].
  - (* a single target *)
    eexists. split; [apply init_fallback; exact Hshort |].
    match goal with |- context [histogramSparsity.weight ?s] => set (self := s) end.
    split; [reflexivity |]. split; [exact Hsorted |]. split; [exact Hzero |].
    split; [exact Hin |]. split; [reflexivity |].
    pose proof (np_unique_length (with_zero mus)) as Hul.
    split; [intros H2; simpl in H2; lia |].
    apply (Hcost self); reflexivity.
  - (* at least two targets *)
    assert (Hnz : Exists (fun m => ~ m == 0) mus).
    { destruct Hmus as [Hle | Hex]; [| exact Hex].
      unfold with_zero in Hlong.
      destruct (existsb (fun m => Qeq_bool m 0) mus) eqn:E; [lia |].
      destruct mus as [| m [| m' mus]]; simpl in Hle, Hlong; [lia | | lia].
      constructor. intros Hm. apply Qeq_bool_iff in Hm. simpl in E. rewrite Hm in E.
      discriminate. }
    assert (Htwo : (2 <= length (np_unique (with_zero mus)))%nat).
    { apply List.Exists_exists in Hnz. destruct Hnz as [m [Hm Hm0]].
      apply (two_targets _ m 0); [| exact Hzero | exact Hm0].
      apply Hin. left. apply Qin_In. exists m. split; [exact Hm | reflexivity]. }
    destruct (init_gaps leapct mus weight Hlong Htwo) as (g0 & gs & Hgaps & Hinit).
    destruct (fold_py_min (g0 :: gs) g0) as (Hmem_min & _ & Hle_min).
    assert (Hmin_in : In (fold_left py_min (g0 :: gs) g0) (g0 :: gs)).
    { destruct Hmem_min as [-> | H]; [left; reflexivity | exact H]. }
    remember (fold_left py_min (g0 :: gs) g0) as m eqn:Hm in Hmin_in, Hle_min.
    rewrite <- Hgaps in Hmin_in. rewrite Hm in *. clear Hm m.
    destruct (gaps_are_differences _ Hsorted _ Hmin_in) as (a & b & Ha & Hb & Hab & Hmab).
    eexists. split; [exact Hinit |].
    match goal with |- context [histogramSparsity.weight ?s] => set (self := s) end.
    split; [reflexivity |]. split; [exact Hsorted |]. split; [exact Hzero |].
    split; [exact Hin |]. split; [intros H1; simpl in H1; lia |].
    split.
    + intros _. exists a, b.
      split; [apply Qin_In; exists a; split; [exact Ha | reflexivity] |].
      split; [apply Qin_In; exists b; split; [exact Hb | reflexivity] |].
      split; [exact Hab |].
      split; [unfold self; cbn [histogramSparsity.GemanParam]; rewrite Hmab; reflexivity |].
      intros a' b' Ha' Hb' Hab'.
      destruct (gaps_bound _ Hsorted a' b' Ha' Hb' Hab') as [g [Hg Hgle]].
      rewrite Hgaps in Hg. rewrite List.Forall_forall in Hle_min.
      specialize (Hle_min g Hg). lra.
    + apply (Hcost self); [reflexivity | reflexivity |].
      unfold self. cbn [histogramSparsity.GemanParam]. rewrite Hmab. nra.
Qed.

(** C9 (amended) for [mus = [1.0, 2.0]] and weight 1. *)
Lemma histogramSparsity_targets_witness :
  exists self,
    histogramSparsity.init exact_engine [1; 2] 1 = Ok self /\
    histogramSparsity.weight self = 1 /\
    StronglySorted Qlt (histogramSparsity.mus self) /\
    Qin 0 (histogramSparsity.mus self) /\
    (forall x, Qin x (histogramSparsity.mus self) <-> Qin x [1; 2] \/ x == 0) /\
    (length (histogramSparsity.mus self) = 1%nat ->
     histogramSparsity.GemanParam self = 1 # 100000) /\
    ((2 <= length (histogramSparsity.mus self))%nat ->
     exists a b,
       Qin a (histogramSparsity.mus self) /\ Qin b (histogramSparsity.mus self) /\
       a < b /\
       histogramSparsity.GemanParam self == (1 # 4) * (b - a) * (b - a) /\
       forall a' b',
         Qin a' (histogramSparsity.mus self) -> Qin b' (histogramSparsity.mus self) ->
         a' < b' -> b - a <= b' - a') /\
    (0 < 1 ->
     forall f g : volume,
       Forall (fun x => Qin x (histogramSparsity.mus self)) f ->
       Forall (midpoint_of_adjacent (histogramSparsity.mus self)) g -> g <> [] ->
       exists cf cg,
         histogramSparsity.cost self f = Ok (Some cf) /\
         histogramSparsity.cost self g = Ok (Some cg) /\
         cf == 0 /\ cf < cg).
Proof.
  apply (proj1 histogramSparsity_targets exact_engine [1; 2] 1).
  right. constructor. discriminate.
Defined.

(** * Further properties *)

(** ** The sequence: empty list, [append], errors *)

(** X1.  A sequence without filters, fresh or cleared: [cost] and
    [quadForm] are 0 and [apply] leaves the heap alone, while [gradient]
    raises [IndexError] at [self.filters[0]], whatever [beta] is. *)
Theorem empty_sequence_behaviour (self : filterSequence.t) (f d : volume) (r : ref) (h : heap) :
  filterSequence.filters (filterSequence.clear self) = [] /\
  (exists c, filterSequence.cost (filterSequence.clear self) f = Ok c /\ c == 0) /\
  (exists q, filterSequence.quadForm (filterSequence.clear self) f d = Ok q /\ q == 0) /\
  filterSequence.gradient (filterSequence.clear self) f = Raise IndexError /\
  filterSequence.gradient (filterSequence.init (filterSequence.beta self)) f = Raise IndexError /\
  filterSequence.apply (filterSequence.clear self) r h = Ok (r, h).
Proof.
  split; [reflexivity |].
  unfold filterSequence.cost, filterSequence.quadForm, filterSequence.clear.
  cbn [filterSequence.filters filterSequence.beta
       filterSequence.cost_loop filterSequence.quadForm_loop rbind].
  destruct (Qgt_bool (filterSequence.beta self) 0).
  - split; [eexists; split; [reflexivity | ring] |].
    split; [eexists; split; [reflexivity | ring] |]. auto.
  - split; [eexists; split; reflexivity |].
    split; [eexists; split; reflexivity |]. auto.
Qed.

Lemma acc_loop_app (A : Type) (call : denoisingFilter.t -> result (option A))
    (add : A -> A -> A) (fs1 fs2 : list denoisingFilter.t) (acc : A) :
  acc_loop call add (fs1 ++ fs2) acc
  = (x <-- acc_loop call add fs1 acc ; acc_loop call add fs2 x).
Proof.
  revert acc. induction fs1 as [| flt fs1 IH]; intros acc; [reflexivity |].
  cbn [app acc_loop]. destruct (filterSequence.participates flt); [| apply IH].
  destruct (rbind (call flt) expect); cbn [rbind]; [apply IH | reflexivity].
Qed.

Lemma acc_loop_single (A : Type) (call : denoisingFilter.t -> result (option A))
    (add : A -> A -> A) (flt : denoisingFilter.t) (acc x : A) :
  filterSequence.participates flt = true -> call flt = Ok (Some x) ->
  acc_loop call add [flt] acc = Ok (add acc x).
Proof. intros Hp Hx. cbn [acc_loop]. rewrite Hp, Hx. reflexivity. Qed.

Lemma acc_loop_skip (A : Type) (call : denoisingFilter.t -> result (option A))
    (add : A -> A -> A) (flt : denoisingFilter.t) (acc : A) :
  filterSequence.participates flt = false -> acc_loop call add [flt] acc = Ok acc.
Proof. intros Hp. cbn [acc_loop]. now rewrite Hp. Qed.

Lemma rbind_Ok_r (A : Type) (r : result A) : (x <-- r ; Ok x) = r.
Proof. destruct r; reflexivity. Qed.

Lemma vscale_r_vadd (D g : volume) (c : Q) :
  veq (vscale_r (vadd D g) c) (vadd (vscale_r D c) (vscale c g)).
Proof.
  unfold vscale_r, vscale, vadd. revert g.
  induction D as [| x D IH]; intros [| y g]; cbn [zip_with map]; constructor; [ring | apply IH].
Qed.

(** X2.  [append] and the sums: a filter that is not differentiable or has
    a weight that is not positive leaves [cost], [quadForm] and (on a
    nonempty sequence) [gradient] as they were; a filter that takes part
    adds [beta] times what it returns. *)
Theorem append_adds_one_term (self : filterSequence.t) (flt : denoisingFilter.t)
    (f d : volume) :
  (filterSequence.participates flt = false ->
   filterSequence.cost (filterSequence.append self flt) f = filterSequence.cost self f /\
   filterSequence.quadForm (filterSequence.append self flt) f d
   = filterSequence.quadForm self f d /\
   (filterSequence.filters self <> [] ->
    filterSequence.gradient (filterSequence.append self flt) f
    = filterSequence.gradient self f)) /\
  (filterSequence.participates flt = true -> 0 < filterSequence.beta self ->
   (forall c0 c, filterSequence.cost self f = Ok c0 ->
      denoisingFilter.call_cost flt f = Ok (Some c) ->
      exists c1, filterSequence.cost (filterSequence.append self flt) f = Ok c1 /\
                 c1 == c0 + filterSequence.beta self * c) /\
   (forall q0 q, filterSequence.quadForm self f d = Ok q0 ->
      denoisingFilter.call_quadForm flt f d = Ok (Some q) ->
      exists q1, filterSequence.quadForm (filterSequence.append self flt) f d = Ok q1 /\
                 q1 == q0 + filterSequence.beta self * q) /\
   (forall D0 g, filterSequence.gradient self f = Ok D0 ->
      denoisingFilter.call_gradient flt f = Ok (Some g) ->
      exists D1, filterSequence.gradient (filterSequence.append self flt) f = Ok D1 /\
                 veq D1 (vadd D0 (vscale (filterSequence.beta self) g)))).
Proof.
  unfold filterSequence.cost, filterSequence.quadForm, filterSequence.gradient,
    filterSequence.append.
  cbn [filterSequence.filters filterSequence.beta].
  rewrite !cost_loop_acc, !quadForm_loop_acc, !acc_loop_app.
  split.
  - intros Hp. split; [| split].
    + destruct (Qgt_bool (filterSequence.beta self) 0); [| reflexivity].
      destruct (acc_loop _ Qplus (filterSequence.filters self) 0); cbn [rbind];
        [| reflexivity].
      now rewrite (acc_loop_skip _ _ _ flt) by exact Hp.
    + destruct (Qgt_bool (filterSequence.beta self) 0); [| reflexivity].
      destruct (acc_loop _ Qplus (filterSequence.filters self) 0); cbn [rbind];
        [| reflexivity].
      now rewrite (acc_loop_skip _ _ _ flt) by exact Hp.
    + intros Hne. destruct (filterSequence.filters self) as [| flt0 fs0] eqn:E; [congruence |].
      change ((flt0 :: fs0) ++ [flt]) with (flt0 :: (fs0 ++ [flt])).
      destruct (Qgt_bool (filterSequence.beta self) 0); [| reflexivity].
      rewrite !gradient_loop_acc.
      change (flt0 :: fs0 ++ [flt]) with ((flt0 :: fs0) ++ [flt]).
      rewrite acc_loop_app.
      destruct (acc_loop _ vadd (flt0 :: fs0) _); cbn [rbind]; [| reflexivity].
      now rewrite (acc_loop_skip _ _ _ flt) by exact Hp.
  - intros Hp Hb. apply Qgt_bool_true_iff in Hb. rewrite Hb. split; [| split].
    + intros c0 c H0 Hc.
      destruct (acc_loop _ Qplus (filterSequence.filters self) 0) as [a |]; [| discriminate].
      cbn [rbind] in *. injection H0 as <-.
      rewrite (acc_loop_single _ _ _ flt a c Hp Hc). cbn [rbind].
      eexists. split; [reflexivity | ring].
    + intros q0 q H0 Hq.
      destruct (acc_loop _ Qplus (filterSequence.filters self) 0) as [a |]; [| discriminate].
      cbn [rbind] in *. injection H0 as <-.
      rewrite (acc_loop_single _ _ _ flt a q Hp Hq). cbn [rbind].
      eexists. split; [reflexivity | ring].
    + intros D0 g H0 Hg.
      destruct (filterSequence.filters self) as [| flt0 fs0] eqn:E; [discriminate |].
      change ((flt0 :: fs0) ++ [flt]) with (flt0 :: (fs0 ++ [flt])).
      rewrite !gradient_loop_acc in *.
      change (flt0 :: fs0 ++ [flt]) with ((flt0 :: fs0) ++ [flt]).
      rewrite acc_loop_app.
      destruct (acc_loop _ vadd (flt0 :: fs0) _) as [a |]; [| discriminate].
      cbn [rbind] in *. injection H0 as <-.
      rewrite (acc_loop_single _ _ _ flt a g Hp Hg). cbn [rbind].
      eexists. split; [reflexivity | apply vscale_r_vadd].
Qed.

(** X2 on the sample sequence and a second [LpNorm]. *)
Lemma append_adds_one_term_witness :
  (exists c1, filterSequence.cost
                (filterSequence.append (sample_sequence 2) (LpNorm.object sample_LpNorm))
                [1; -1; 2] = Ok c1 /\
              c1 == (12 # 2) + 2 * (6 # 2)) /\
  filterSequence.cost
    (filterSequence.append (sample_sequence 2)
       (BlurFilter.object (BlurFilter.init exact_engine 2))) [1; -1; 2]
  = filterSequence.cost (sample_sequence 2) [1; -1; 2].
Proof.
  split.
  - apply (proj1 (proj2 (append_adds_one_term (sample_sequence 2)
                           (LpNorm.object sample_LpNorm) [1; -1; 2] [1; 1; 1])
                    eq_refl eq_refl) (12 # 2) (6 # 2)); vm_compute; reflexivity.
  - apply (proj1 (append_adds_one_term (sample_sequence 2)
                    (BlurFilter.object (BlurFilter.init exact_engine 2))
                    [1; -1; 2] [1; 1; 1])). reflexivity.
Defined.

Lemma acc_loop_first_error (A : Type) (call : denoisingFilter.t -> result (option A))
    (add : A -> A -> A) (fs1 fs2 : list denoisingFilter.t) (flt : denoisingFilter.t)
    (xs : list A) (acc : A) (e : exn) :
  Forall2 (fun flt x => call flt = Ok (Some x)) (selected fs1) xs ->
  filterSequence.participates flt = true ->
  (r <-- call flt ; expect r) = Raise e ->
  acc_loop call add (fs1 ++ flt :: fs2) acc = Raise e.
Proof.
  intros H1 Hp He. rewrite acc_loop_app, (acc_loop_Ok _ _ _ xs) by exact H1.
  cbn [rbind acc_loop]. rewrite Hp, He. reflexivity.
Qed.

(** X4.  With [beta > 0], the first filter that takes part and whose method
    fails decides the outcome of [cost]: its exception is raised, and a
    method that returns [None] (as the inherited [cost] does) ends in a
    [TypeError].  In particular a sequence with an [azimuthalFilter] of
    positive weight has no cost when the name [p] is unbound. *)
Theorem cost_first_failure (fs1 fs2 : list denoisingFilter.t) (flt : denoisingFilter.t)
    (beta : Q) (f : volume) (cs : list Q) :
  0 < beta ->
  Forall2 (fun flt c => denoisingFilter.call_cost flt f = Ok (Some c)) (selected fs1) cs ->
  filterSequence.participates flt = true ->
  (forall e, denoisingFilter.call_cost flt f = Raise e ->
     filterSequence.cost
       {| filterSequence.filters := fs1 ++ flt :: fs2; filterSequence.beta := beta |} f
     = Raise e) /\
  (denoisingFilter.call_cost flt f = Ok None ->
     filterSequence.cost
       {| filterSequence.filters := fs1 ++ flt :: fs2; filterSequence.beta := beta |} f
     = Raise TypeError) /\
  (forall self : azimuthalFilter.t,
     flt = azimuthalFilter.object None self ->
     filterSequence.cost
       {| filterSequence.filters := fs1 ++ flt :: fs2; filterSequence.beta := beta |} f
     = Raise (NameError "p")).
Proof.
  intros Hb H1 Hp. apply Qgt_bool_true_iff in Hb.
  unfold filterSequence.cost. cbn [filterSequence.filters filterSequence.beta].
  rewrite Hb, cost_loop_acc.
  assert (Hgen : forall e, (r <-- denoisingFilter.call_cost flt f ; expect r) = Raise e ->
            (retVal <-- acc_loop (fun flt0 => denoisingFilter.call_cost flt0 f) Qplus
                          (fs1 ++ flt :: fs2) 0 ; Ok (retVal * beta)) = Raise e).
  { intros e He. now rewrite (acc_loop_first_error _ _ _ fs1 fs2 flt cs 0 e H1 Hp He). }
  split; [| split].
  - intros e He. apply Hgen. now rewrite He.
  - intros He. apply Hgen. now rewrite He.
  - intros self ->. apply Hgen. reflexivity.
Qed.

(** X4 on a blur filter followed by an [azimuthalFilter]. *)
Lemma cost_first_failure_witness :
  filterSequence.cost
    {| filterSequence.filters :=
         [BlurFilter.object (BlurFilter.init exact_engine 2)]
         ++ azimuthalFilter.object None sample_azimuthalFilter :: [LpNorm.object sample_LpNorm];
       filterSequence.beta := 2 |} [1; -1; 2]
  = Raise (NameError "p").
Proof.
  apply (proj2 (proj2 (cost_first_failure
                  [BlurFilter.object (BlurFilter.init exact_engine 2)]
                  [LpNorm.object sample_LpNorm]
                  (azimuthalFilter.object None sample_azimuthalFilter) 2 [1; -1; 2] []
                  eq_refl (List.Forall2_nil _) eq_refl)) sample_azimuthalFilter eq_refl).
Defined.

Lemma apply_loop_app (fs1 fs2 : list denoisingFilter.t) (f : ref) (h : heap) :
  filterSequence.apply_loop (fs1 ++ fs2) f h
  = match filterSequence.apply_loop fs1 f h with
    | Ok (_, h') => filterSequence.apply_loop fs2 f h'
    | Raise e => Raise e
    end.
Proof.
  revert h. induction fs1 as [| flt fs1 IH]; intros h; [reflexivity |].
  cbn [app filterSequence.apply_loop]. unfold bind.
  destruct (denoisingFilter.call_apply flt f h) as [[r h1] | e]; [apply IH | reflexivity].
Qed.

(** X5.  [apply] after [append]: the sequence as it was runs first, and the
    new filter then works on the volume the sequence left; a failure of
    either is the failure of the whole. *)
Theorem apply_after_append (self : filterSequence.t) (flt : denoisingFilter.t)
    (f : ref) (h : heap) :
  filterSequence.apply (filterSequence.append self flt) f h
  = match filterSequence.apply self f h with
    | Ok (_, h') =>
        match denoisingFilter.call_apply flt f h' with
        | Ok (_, h'') => Ok (f, h'')
        | Raise e => Raise e
        end
    | Raise e => Raise e
    end.
Proof.
  unfold filterSequence.apply, filterSequence.append.
  cbn [filterSequence.filters]. unfold bind.
  rewrite apply_loop_app.
  destruct (filterSequence.apply_loop (filterSequence.filters self) f h) as [[u h1] | e];
    [| reflexivity].
  cbn [filterSequence.apply_loop]. unfold bind, ret.
  destruct (denoisingFilter.call_apply flt f h1) as [[r h2] | e]; reflexivity.
Qed.

(** ** What [apply] leaves alone *)

Lemma bind_Ok_inv (A B : Type) (m : M A) (k : A -> M B) (h h'' : heap) (b : B) :
  bind m k h = Ok (b, h'') -> exists a h', m h = Ok (a, h') /\ k a h' = Ok (b, h'').
Proof.
  unfold bind. destruct (m h) as [[a h'] | e]; [| discriminate].
  intros H. exists a, h'. auto.
Qed.

Lemma read_Ok_inv (f : ref) (h h' : heap) (v : volume) :
  read f h = Ok (v, h') -> h' = h /\ h !! f = Some v.
Proof.
  unfold read. destruct (h !! f) as [w |]; [| discriminate].
  intros H. injection H as <- <-. auto.
Qed.

Lemma write_Ok_inv (f : ref) (v : volume) (h h' : heap) (u : unit) :
  write f v h = Ok (u, h') -> h' = <[f := v]> h.
Proof.
  unfold write. destruct (h !! f); [| discriminate]. intros H. now injection H as _ <-.
Qed.

Lemma lift_Ok_inv (A : Type) (r : result A) (a : A) (h h' : heap) :
  lift r h = Ok (a, h') -> r = Ok a /\ h' = h.
Proof. unfold lift. destruct r; [| discriminate]. intros H. injection H as <- <-. auto. Qed.

Lemma frame_refl (f : ref) (h : heap) : frame f h h.
Proof. split; [lia | auto]. Qed.

Lemma frame_trans (f : ref) (h h' h'' : heap) : frame f h h' -> frame f h' h'' -> frame f h h''.
Proof.
  intros [Hl1 H1] [Hl2 H2]. split; [lia |].
  intros r Hr Hlt. rewrite H2 by (assumption || lia). now apply H1.
Qed.

Lemma frame_insert (f : ref) (v : volume) (h : heap) : frame f h (<[f := v]> h).
Proof.
  split; [rewrite length_insert; lia |].
  intros r Hr _. apply list_lookup_insert_ne. congruence.
Qed.

Lemma frame_alloc (f : ref) (v : volume) (h : heap) : frame f h (h ++ [v]).
Proof.
  split; [rewrite length_app; simpl; lia |].
  intros r _ Hlt. now apply lookup_app_l.
Qed.

Lemma inplace_frame (k : volume -> volume) (f r : ref) (h h' : heap) :
  tomographicModels.inplace k f h = Ok (r, h') -> r = f /\ frame f h h'.
Proof.
  unfold tomographicModels.inplace. intros H.
  apply bind_Ok_inv in H. destruct H as (v & h1 & Hr & H).
  apply read_Ok_inv in Hr. destruct Hr as [-> _].
  apply bind_Ok_inv in H. destruct H as (u & h2 & Hw & H).
  apply write_Ok_inv in Hw. subst h2. unfold ret in H. injection H as <- <-.
  split; [reflexivity | apply frame_insert].
Qed.

Lemma generic_apply_frame (self : denoisingFilter.t) (f : ref) (h h' : heap) (r : option ref) :
  denoisingFilter.apply self f h = Ok (r, h') ->
  (r = Some f \/ (r = None /\ h' = h)) /\ frame f h h'.
Proof.
  unfold denoisingFilter.apply.
  destruct (denoisingFilter.isDifferentiable self).
  - intros H.
    apply bind_Ok_inv in H. destruct H as (fv & h1 & Hr & H).
    apply read_Ok_inv in Hr. destruct Hr as [-> _].
    apply bind_Ok_inv in H. destruct H as (d & h1 & Hd & H).
    apply lift_Ok_inv in Hd. destruct Hd as [_ ->].
    apply bind_Ok_inv in H. destruct H as (denom & h1 & Hq & H).
    apply lift_Ok_inv in Hq. destruct Hq as [_ ->].
    destruct (Qle_bool denom (1 # 10000000000000000)).
    + unfold ret in H. injection H as <- <-. split; [auto | apply frame_refl].
    + apply bind_Ok_inv in H. destruct H as (u & h1 & Hw & H).
      apply write_Ok_inv in Hw. subst h1. unfold ret in H. injection H as <- <-.
      split; [auto | apply frame_insert].
  - unfold ret. intros H. injection H as <- <-. split; [auto | apply frame_refl].
Qed.

Lemma kernel_apply_frame (k : volume -> volume) (f : ref) (h h' : heap) (r : option ref) :
  (x <- tomographicModels.inplace k f ;; ret (Some x)) h = Ok (r, h') ->
  r = Some f /\ frame f h h'.
Proof.
  intros H. apply bind_Ok_inv in H. destruct H as (x & h1 & Hk & H).
  apply inplace_frame in Hk. destruct Hk as [-> Hfr].
  unfold ret in H. injection H as <- <-. auto.
Qed.

Lemma TV_apply_frame (self : TV.t) (f : ref) (h h' : heap) (r : option ref) :
  TV.apply self f h = Ok (r, h') -> r = Some f /\ frame f h h'.
Proof.
  unfold TV.apply. destruct (TV.f_0 self) as [f0 |] eqn:E0.
  - intros H. destruct (h !! f) as [fv |] eqn:Hf.
    + assert (Hap := TV_apply_with_prior self f h f0 fv E0 Hf).
      unfold TV.apply in Hap. rewrite E0 in Hap. rewrite Hap in H.
      injection H as <- <-. split; [reflexivity |].
      eapply frame_trans; [apply frame_insert | apply frame_alloc].
    + unfold bind, read in H. rewrite Hf in H. discriminate.
  - apply kernel_apply_frame.
Qed.

Lemma LpNorm_apply_frame (self : LpNorm.t) (f : ref) (h h' : heap) (r : option ref) :
  LpNorm.apply self f h = Ok (r, h') ->
  (r = Some f \/ (r = None /\ h' = h)) /\ frame f h h'.
Proof.
  unfold LpNorm.apply. destruct (LpNorm.f_0 self) as [f0 |].
  - intros H.
    apply bind_Ok_inv in H. destruct H as (fv & h1 & Hr & H).
    apply read_Ok_inv in Hr. destruct Hr as [-> _].
    apply bind_Ok_inv in H. destruct H as (u & h1 & Hw & H).
    apply write_Ok_inv in Hw. subst h1.
    apply bind_Ok_inv in H. destruct H as (r1 & h2 & Hg & H).
    apply generic_apply_frame in Hg. destruct Hg as [Hr1 Hfr].
    apply bind_Ok_inv in H. destruct H as (f' & h3 & He & H).
    apply lift_Ok_inv in He. destruct He as [He ->].
    destruct Hr1 as [-> | [-> _]]; [| discriminate]. injection He as <-.
    apply bind_Ok_inv in H. destruct H as (fv' & h3 & Hr & H).
    apply read_Ok_inv in Hr. destruct Hr as [-> _].
    apply bind_Ok_inv in H. destruct H as (u' & h3 & Hw & H).
    apply write_Ok_inv in Hw. subst h3. unfold ret in H. injection H as <- <-.
    split; [left; reflexivity |].
    eapply frame_trans; [apply frame_insert |].
    eapply frame_trans; [exact Hfr | apply frame_insert].
  - apply generic_apply_frame.
Qed.

Lemma module_filter_frame (flt : denoisingFilter.t) (f : ref) (h h' : heap) (r : option ref) :
  module_filter flt ->
  denoisingFilter.call_apply flt f h = Ok (r, h') ->
  (r = Some f \/ (r = None /\ h' = h)) /\ frame f h h'.
Proof.
  unfold denoisingFilter.call_apply.
  intros [Hov | [[s ->] | [[s ->] | [[s ->] | [[s ->] | [s ->]]]]]].
  - rewrite Hov. apply generic_apply_frame.
  - cbn [BlurFilter.object denoisingFilter.apply_override]. intros H.
    apply kernel_apply_frame in H. tauto.
  - cbn [BilateralFilter.object denoisingFilter.apply_override]. intros H.
    apply kernel_apply_frame in H. tauto.
  - cbn [MedianFilter.object denoisingFilter.apply_override]. intros H.
    apply kernel_apply_frame in H. tauto.
  - cbn [TV.object denoisingFilter.apply_override]. intros H.
    apply TV_apply_frame in H. tauto.
  - cbn [LpNorm.object denoisingFilter.apply_override]. apply LpNorm_apply_frame.
Qed.

(** X6.  [apply] works on the array it is given and on no other: for the
    filters of the module and for every filter that inherits [apply], a
    call that returns leaves every other array of the caller as it was, and
    returns the reference [f] it was given (or [None], then with nothing
    changed); a sequence of such filters does the same and returns [f]. *)
Theorem apply_touches_only_its_argument :
  (forall (flt : denoisingFilter.t) (f : ref) (h h' : heap) (r : option ref),
     module_filter flt ->
     denoisingFilter.call_apply flt f h = Ok (r, h') ->
     (r = Some f \/ (r = None /\ h' = h)) /\
     (length h <= length h')%nat /\
     forall r' : ref, r' <> f -> (r' < length h)%nat -> h' !! r' = h !! r') /\
  (forall (self : filterSequence.t) (f r : ref) (h h' : heap),
     Forall module_filter (filterSequence.filters self) ->
     filterSequence.apply self f h = Ok (r, h') ->
     r = f /\
     (length h <= length h')%nat /\
     forall r' : ref, r' <> f -> (r' < length h)%nat -> h' !! r' = h !! r').
Proof.
  split.
  - intros flt f h h' r Hm H. exact (module_filter_frame flt f h h' r Hm H).
  - intros self f r h h' Hall H. unfold filterSequence.apply in H.
    apply bind_Ok_inv in H. destruct H as (u & h1 & Hl & H).
    unfold ret in H. injection H as <- <-. split; [reflexivity |].
    change (frame f h h1). destruct u.
    revert h Hl. induction Hall as [| flt fs Hm _ IH]; intros h Hl.
    + cbn [filterSequence.apply_loop] in Hl. unfold ret in Hl. injection Hl as <-.
      apply frame_refl.
    + cbn [filterSequence.apply_loop] in Hl.
      apply bind_Ok_inv in Hl. destruct Hl as (r0 & h0 & Hf & Hl).
      apply module_filter_frame in Hf; [| exact Hm]. destruct Hf as [_ Hf].
      eapply frame_trans; [exact Hf | apply IH; exact Hl].
Qed.

(** X6 on the sample sequence, with a second array in the heap. *)
Lemma apply_touches_only_its_argument_witness :
  exists h', filterSequence.apply (sample_sequence 2) 0%nat [[0; 4; 8]; [7; 7]] = Ok (0%nat, h') /\
             h' !! 1%nat = Some [7; 7].
Proof.
  destruct (filterSequence.apply (sample_sequence 2) 0%nat [[0; 4; 8]; [7; 7]])
    as [[r h'] | e] eqn:E; [| vm_compute in E; discriminate].
  destruct (proj2 apply_touches_only_its_argument (sample_sequence 2) 0%nat r
              [[0; 4; 8]; [7; 7]] h') as (Hr & _ & Hfr).
  - unfold sample_sequence, filterSequence.append, filterSequence.init.
    cbn [filterSequence.filters app]. unfold module_filter.
    constructor; [right; left; eexists; reflexivity |].
    constructor; [do 5 right; eexists; reflexivity |].
    constructor; [do 4 right; left; eexists; reflexivity |]. constructor.
  - exact E.
  - subst r. exists h'. split; [reflexivity |]. apply (Hfr 1%nat); [discriminate | simpl; lia].
Defined.

(** ** [LpNorm]: the prior and the quadratic case *)

(** With a prior the three functionals are those of the filter without
    prior, at [f - f_0]. *)
Lemma LpNorm_prior_recentres (self : LpNorm.t) (f0 f d : volume) :
  LpNorm.f_0 self = Some f0 ->
  LpNorm.cost self f = LpNorm.cost (LpNorm_without_prior self) (vsub f f0) /\
  LpNorm.gradient self f = LpNorm.gradient (LpNorm_without_prior self) (vsub f f0) /\
  LpNorm.quadForm self f d = LpNorm.quadForm (LpNorm_without_prior self) (vsub f f0) d.
Proof.
  intros H0. unfold LpNorm.cost, LpNorm.gradient, LpNorm.quadForm, LpNorm_without_prior.
  rewrite H0. cbn [LpNorm.f_0 LpNorm.leapct LpNorm.p LpNorm.weight]. auto.
Qed.

(** X7.  [LpNorm.apply] with a prior centres [f] in place and then runs the
    inherited step, whose gradient and quadratic form subtract the prior
    once more: the step is the one of the filter without prior at
    [f - 2*f_0], taken from [f - f_0], and the prior is added back. *)
Theorem LpNorm_apply_with_prior (self : LpNorm.t) (f : ref) (h : heap)
    (f0 fv g : volume) (denom : Q) :
  LpNorm.f_0 self = Some f0 ->
  LpNorm.isDifferentiable self = true ->
  h !! f = Some fv ->
  LpNorm.gradient (LpNorm_without_prior self) (vsub (vsub fv f0) f0) = Ok (Some g) ->
  LpNorm.quadForm (LpNorm_without_prior self) (vsub (vsub fv f0) f0) g = Ok (Some denom) ->
  (denom <= 1 # 10000000000000000 ->
   LpNorm.apply self f h = Ok (Some f, <[f := vadd (vsub fv f0) f0]> h)) /\
  (1 # 10000000000000000 < denom ->
   LpNorm.apply self f h
   = Ok (Some f,
         <[f := vadd (vsub (vsub fv f0)
                        (vscale (tomographicModels.sum (vsquare g) / denom) g)) f0]> h)).
Proof.
  intros H0 Hd Hf Hg Hq.
  assert (Hlt : (f < length h)%nat) by (eapply lookup_lt_Some; exact Hf).
  destruct (LpNorm_prior_recentres self f0 (vsub fv f0) g H0) as (_ & Hg' & Hq').
  assert (Hap := generic_apply_eval (LpNorm.super self) f (<[f := vsub fv f0]> h)
                   (vsub fv f0) g denom Hd).
  cbn [LpNorm.super denoisingFilter.call_gradient denoisingFilter.call_quadForm] in Hap.
  rewrite Hg', Hq' in Hap.
  specialize (Hap (list_lookup_insert_eq _ _ _ Hlt) Hg Hq).
  unfold LpNorm.apply. rewrite H0.
  rewrite (bind_read _ _ _ _ _ Hf), (bind_write _ _ _ _ _ _ Hf).
  split; intros Hden; unfold bind at 1; rewrite Hap.
  - apply Qle_bool_iff in Hden. rewrite Hden.
    rewrite (bind_lift_Ok _ _ _ f) by reflexivity.
    rewrite (bind_read _ _ _ (vsub fv f0)) by (apply list_lookup_insert_eq; exact Hlt).
    rewrite (bind_write _ _ _ (vsub fv f0)) by (apply list_lookup_insert_eq; exact Hlt).
    unfold ret. now rewrite list_insert_insert_eq.
  - apply Qle_bool_false_iff in Hden. rewrite Hden.
    rewrite (bind_lift_Ok _ _ _ f) by reflexivity.
    set (v := vsub (vsub fv f0) (vscale (tomographicModels.sum (vsquare g) / denom) g)).
    assert (Hv : <[f := v]> (<[f := vsub fv f0]> h) !! f = Some v)
      by (apply list_lookup_insert_eq; rewrite length_insert; exact Hlt).
    rewrite (bind_read _ _ _ v _ Hv), (bind_write _ _ _ v _ _ Hv).
    unfold ret. now rewrite !list_insert_insert_eq.
Qed.

(** X7 on [LpNorm(p=1, weight=1, f_0=[1,1,1])] at [f = [4, 5, -1]]. *)
Lemma LpNorm_apply_with_prior_witness :
  exists g denom,
    LpNorm.gradient (LpNorm_without_prior sample_LpNorm_prior) [2; 3; -3] = Ok (Some g) /\
    LpNorm.apply sample_LpNorm_prior 0%nat [[4; 5; -1]]
    = Ok (Some 0%nat,
          <[0%nat := vadd (vsub (vsub [4; 5; -1] [1; 1; 1])
                             (vscale (tomographicModels.sum (vsquare g) / denom) g))
                       [1; 1; 1]]> [[4; 5; -1]]).
Proof.
  eexists. eexists. split.
  - vm_compute. reflexivity.
  - apply (proj2 (LpNorm_apply_with_prior sample_LpNorm_prior 0%nat [[4; 5; -1]]
                    [1; 1; 1] [4; 5; -1] _ _ eq_refl eq_refl eq_refl eq_refl
                    ltac:(vm_compute; reflexivity))).
    reflexivity.
Defined.

Lemma Qsign_Qabs (x : Q) : Qsign x * Qabs x == x.
Proof.
  unfold Qsign. destruct (Qcompare x 0) eqn:E.
  - apply Qeq_alt in E. rewrite E. reflexivity.
  - apply Qlt_alt in E. rewrite Qabs_neg by lra. ring.
  - apply Qgt_alt in E. rewrite Qabs_pos by lra. ring.
Qed.

Lemma sum_veq (a b : volume) : veq a b -> tomographicModels.sum a == tomographicModels.sum b.
Proof.
  intros H. unfold tomographicModels.sum. rewrite !fold_left_Qplus.
  assert (Hs : Qsum a == Qsum b).
  { induction H as [| x y a b Hxy _ IH]; cbn [Qsum foldr]; [reflexivity |].
    fold (Qsum a). fold (Qsum b). rewrite Hxy, IH. reflexivity. }
  rewrite Hs. reflexivity.
Qed.

Lemma pow_all (leapct : tomographicModels.t) (a : volume) (n : Z) :
  integral_power leapct -> (0 <= n)%Z ->
  exists t, tomographicModels.pow leapct a (inject_Z n) = Ok t /\
            Forall2 (fun x y => y == Qpower x n) a t.
Proof.
  intros Hp Hn. apply pow_integral; [exact Hp |].
  apply List.Forall_forall. intros x _. right. exact Hn.
Qed.

Lemma quadratic_gradient (w : Q) (f t : volume) :
  Forall2 (fun x y => y == Qpower x 1) (tomographicModels.abs f) t ->
  veq (vmul (vscale (w * 2) (tomographicModels.sign f)) t) (vscale (2 * w) f).
Proof.
  unfold tomographicModels.abs, tomographicModels.sign, vmul, vscale, veq.
  revert t. induction f as [| x f IH]; intros t H; inversion H as [| ? y ? t' Hy Ht]; subst.
  - constructor.
  - cbn [map zip_with]. constructor; [| apply IH, Ht].
    rewrite Hy. change (Qabs x ^ 1) with (Qabs x).
    rewrite <- (Qsign_Qabs x) at 3. ring.
Qed.

Lemma quadratic_curvature (w : Q) (f t g : volume) :
  Forall2 (fun x y => y == Qpower x 0)
          (tomographicModels.abs (mask_set f (eq_zero f) 1)) t ->
  veq g (vscale (2 * w) f) ->
  veq (vmul (vmul (mask_set t (eq_zero f) 0) g) g) (vsquare g).
Proof.
  unfold tomographicModels.abs, mask_set, eq_zero, vmul, vscale, vsquare, veq.
  revert t g. induction f as [| x f IH]; intros t g Ht Hg.
  - inversion Hg; subst. destruct t; constructor.
  - cbn [map zip_with] in Ht, Hg.
    inversion Ht as [| ? y ? t' Hy Ht']; subst.
    inversion Hg as [| gx ? g' ? Hgx Hg']; subst.
    cbn [map zip_with]. constructor; [| apply IH; assumption].
    destruct (Qeq_bool x 0) eqn:E.
    + apply Qeq_bool_iff in E. rewrite Hgx, E. ring.
    + rewrite Hy. change (Qabs x ^ 0) with 1. ring.
Qed.

(** X8.  The quadratic case: for [LpNorm] with [p = 2], a positive weight
    [w] and no prior, the gradient is [2*w*f] and the quadratic form along it
    is [2*w*sum(g**2)]; unless that is at most 1e-16, one [apply] replaces
    [f] by the zero volume, the minimiser of the cost. *)
Theorem LpNorm_quadratic_one_step (leapct : tomographicModels.t) (w : Q)
    (f : ref) (h : heap) (fv : volume) :
  integral_power leapct -> 0 < w -> h !! f = Some fv ->
  exists g denom,
    LpNorm.gradient (LpNorm.init leapct 2 w None) fv = Ok (Some g) /\
    LpNorm.quadForm (LpNorm.init leapct 2 w None) fv g = Ok (Some denom) /\
    veq g (vscale (2 * w) fv) /\
    denom == 2 * w * tomographicModels.sum (vsquare g) /\
    (1 # 10000000000000000 < denom ->
     exists v, LpNorm.apply (LpNorm.init leapct 2 w None) f h = Ok (Some f, <[f := v]> h) /\
               veq v (vfill fv 0)).
Proof.
  intros Hp Hw Hf.
  destruct (pow_all leapct (tomographicModels.abs fv) 1 Hp ltac:(lia)) as [t1 [Ht1 Hall1]].
  destruct (pow_all leapct (tomographicModels.abs (mask_set fv (eq_zero fv) 1)) 0 Hp
              ltac:(lia)) as [t0 [Ht0 Hall0]].
  set (g := vmul (vscale (w * 2) (tomographicModels.sign fv)) t1).
  set (denom := w * 2 * tomographicModels.innerProd (mask_set t0 (eq_zero fv) 0) g g).
  assert (Hgrad : LpNorm.gradient (LpNorm.init leapct 2 w None) fv = Ok (Some g)).
  { unfold LpNorm.gradient, LpNorm.init, tomographicModels.copyData.
    cbn [LpNorm.f_0 LpNorm.p LpNorm.leapct LpNorm.weight].
    change (py_max 0 2 - 1) with (inject_Z 1). rewrite Ht1. reflexivity. }
  assert (Hquad : LpNorm.quadForm (LpNorm.init leapct 2 w None) fv g = Ok (Some denom)).
  { unfold LpNorm.quadForm, LpNorm.init, tomographicModels.copyData.
    cbn [LpNorm.f_0 LpNorm.p LpNorm.leapct LpNorm.weight].
    change (py_max 0 2 - 2) with (inject_Z 0). rewrite Ht0. reflexivity. }
  assert (Hg : veq g (vscale (2 * w) fv)) by (apply quadratic_gradient; exact Hall1).
  assert (Hden : denom == 2 * w * tomographicModels.sum (vsquare g)).
  { unfold denom, tomographicModels.innerProd.
    rewrite (sum_veq _ _ (quadratic_curvature w fv t0 g Hall0 Hg)). ring. }
  exists g, denom. split; [exact Hgrad |]. split; [exact Hquad |].
  split; [exact Hg |]. split; [exact Hden |].
  intros Hbig. eexists. split.
  - change (LpNorm.apply (LpNorm.init leapct 2 w None) f h)
      with (denoisingFilter.apply (LpNorm.super (LpNorm.init leapct 2 w None)) f h).
    rewrite (generic_apply_eval (LpNorm.super (LpNorm.init leapct 2 w None)) f h fv g denom
               eq_refl Hf Hgrad Hquad).
    apply Qle_bool_false_iff in Hbig. rewrite Hbig. reflexivity.
  - assert (Hs : ~ tomographicModels.sum (vsquare g) == 0).
    { intros Hz. rewrite Hz in Hden. lra. }
    assert (Hstep : tomographicModels.sum (vsquare g) / denom == / (2 * w)).
    { rewrite Hden. field. split; [lra | exact Hs]. }
    revert Hstep Hg. generalize (tomographicModels.sum (vsquare g) / denom).
    generalize g. clear - Hw. intros g s Hstep Hg.
    unfold vsub, vfill, veq, vscale in *. revert g Hg.
    induction fv as [| x fv IH]; intros g Hg; inversion Hg as [| gx ? g' ? Hgx Hg']; subst.
    + constructor.
    + cbn [map zip_with]. constructor; [| apply IH, Hg'].
      rewrite Hgx, Hstep. field. lra.
Qed.

(** X8 on the exact engine, at [f = [1, -1, 2]] with weight 1/2. *)
Lemma LpNorm_quadratic_one_step_witness :
  exists g denom,
    LpNorm.gradient sample_LpNorm [1; -1; 2] = Ok (Some g) /\
    LpNorm.quadForm sample_LpNorm [1; -1; 2] g = Ok (Some denom) /\
    veq g (vscale (2 * (1 # 2)) [1; -1; 2]) /\
    denom == 2 * (1 # 2) * tomographicModels.sum (vsquare g) /\
    (1 # 10000000000000000 < denom ->
     exists v, LpNorm.apply sample_LpNorm 0%nat [[1; -1; 2]]
               = Ok (Some 0%nat, <[0%nat := v]> [[1; -1; 2]]) /\
               veq v (vfill [1; -1; 2] 0)).
Proof.
  exact (LpNorm_quadratic_one_step exact_engine (1 # 2) 0%nat [[1; -1; 2]] [1; -1; 2]
           exact_engine_integral_power eq_refl eq_refl).
Defined.

(** ** [histogramSparsity]: the constructor *)

Lemma init_short (leapct : tomographicModels.t) (mus : list Q) (weight : Q) :
  (1 < length (with_zero mus))%nat ->
  (length (np_unique (with_zero mus)) < 2)%nat ->
  histogramSparsity.init leapct mus weight = Raise IndexError.
Proof.
  intros Hlen Hu. unfold histogramSparsity.init. cbv zeta. fold (with_zero mus).
  rewrite (np_sort_strictly_sorted _ (proj1 (np_unique_spec (with_zero mus)))).
  apply Nat.ltb_lt in Hlen. rewrite Hlen.
  destruct (np_unique (with_zero mus)) as [| a [| b u]]; simpl in Hu; [| | lia]; reflexivity.
Qed.

Lemma init_Ok_spec (leapct : tomographicModels.t) (mus : list Q) (weight : Q)
    (self : histogramSparsity.t) :
  histogramSparsity.init leapct mus weight = Ok self ->
  histogramSparsity.mus self = np_unique (with_zero mus) /\
  histogramSparsity.weight self = weight /\
  histogramSparsity.leapct self = leapct /\
  histogramSparsity.isDifferentiable self = true /\
  (((length (with_zero mus) <= 1)%nat /\ histogramSparsity.GemanParam self = 1 # 100000) \/
   ((1 < length (with_zero mus))%nat /\ (2 <= length (np_unique (with_zero mus)))%nat /\
    exists g0 gs,
      adjacent_gaps (np_unique (with_zero mus)) = g0 :: gs /\
      histogramSparsity.GemanParam self
      = (1 # 4) * fold_left py_min (g0 :: gs) g0 * fold_left py_min (g0 :: gs) g0)).
Proof.
  intros Hinit.
  destruct (le_lt_dec (length (with_zero mus)) 1) as [Hshort | Hlong].
  - rewrite (init_fallback leapct mus weight Hshort) in Hinit. injection Hinit as <-.
    cbn. repeat split; auto.
  - destruct (le_lt_dec 2 (length (np_unique (with_zero mus)))) as [Htwo | Hone].
    + destruct (init_gaps leapct mus weight Hlong Htwo) as (g0 & gs & Hgaps & Hi).
      rewrite Hi in Hinit. injection Hinit as <-. cbn.
      repeat split; auto. right. repeat split; auto. exists g0, gs. auto.
    + rewrite (init_short leapct mus weight Hlong Hone) in Hinit. discriminate.
Qed.

Lemma init_succeeds (leapct : tomographicModels.t) (mus : list Q) (weight : Q) :
  (length mus <= 1)%nat \/ Exists (fun m => ~ m == 0) mus ->
  exists self, histogramSparsity.init leapct mus weight = Ok self.
Proof.
  intros Hmus.
  destruct (le_lt_dec (length (with_zero mus)) 1) as [Hshort | Hlong].
  - eexists. apply init_fallback. exact Hshort.
  - assert (Hnz : Exists (fun m => ~ m == 0) mus).
    { destruct Hmus as [Hle | Hex]; [| exact Hex].
      unfold with_zero in Hlong.
      destruct (existsb (fun m => Qeq_bool m 0) mus) eqn:E; [lia |].
      destruct mus as [| m [| m' mus]]; simpl in Hle, Hlong; [lia | | lia].
      constructor. intros Hm. apply Qeq_bool_iff in Hm. simpl in E. rewrite Hm in E.
      discriminate. }
    assert (Htwo : (2 <= length (np_unique (with_zero mus)))%nat).
    { apply List.Exists_exists in Hnz. destruct Hnz as [m [Hm Hm0]].
      apply (two_targets _ m 0); [| | exact Hm0].
      - apply np_unique_spec, with_zero_Qin. left.
        apply Qin_In. exists m. split; [exact Hm | reflexivity].
      - apply np_unique_spec, with_zero_Qin. right. reflexivity. }
    destruct (init_gaps leapct mus weight Hlong Htwo) as (g0 & gs & _ & Hi).
    eexists. exact Hi.
Qed.

Lemma sorted_same_value (l : list Q) (c : Q) :
  StronglySorted Qlt l -> (forall x, Qin x l -> x == c) -> (length l <= 1)%nat.
Proof.
  intros Hs Hall. destruct l as [| a [| b l]]; simpl; [lia | lia |]. exfalso.
  assert (Hab : a < b).
  { inversion Hs as [| ? ? _ Hfa]; subst. inversion Hfa; subst. assumption. }
  assert (Ha : a == c) by (apply Hall, Qin_cons; left; reflexivity).
  assert (Hb : b == c) by (apply Hall, Qin_cons; right; apply Qin_cons; left; reflexivity).
  lra.
Qed.

(** X9.  The constructor fails exactly on two or more zeros: for a list
    [mus] of at least two numbers that are all 0 it raises [IndexError] (at
    [self.mus[1]]: the guard looks at the size of the argument, the lookup
    at the targets without repetition); for every other list it returns a
    filter. *)
Theorem init_fails_on_repeated_zeros (leapct : tomographicModels.t) (mus : list Q)
    (weight : Q) :
  ((2 <= length mus)%nat /\ Forall (fun m => m == 0) mus ->
   histogramSparsity.init leapct mus weight = Raise IndexError) /\
  (~ ((2 <= length mus)%nat /\ Forall (fun m => m == 0) mus) ->
   exists self, histogramSparsity.init leapct mus weight = Ok self).
Proof.
  split.
  - intros [Hlen Hall].
    assert (Hwz : with_zero mus = mus).
    { unfold with_zero. destruct mus as [| m mus]; [simpl in Hlen; lia |].
      inversion Hall as [| ? ? Hm _]; subst. apply Qeq_bool_iff in Hm.
      cbn [existsb]. now rewrite Hm. }
    apply init_short; rewrite Hwz; [lia |].
    destruct (np_unique_spec mus) as [Hs Hmem].
    assert (Hle : (length (np_unique mus) <= 1)%nat); [| lia].
    apply (sorted_same_value _ 0 Hs). intros x Hx. apply Hmem in Hx.
    apply Qin_In in Hx. destruct Hx as [y [Hy Hxy]].
    rewrite List.Forall_forall in Hall. specialize (Hall y Hy). lra.
  - intros Hnot. apply init_succeeds.
    destruct (le_lt_dec (length mus) 1) as [Hle | Hlt]; [left; exact Hle |]. right.
    destruct (List.Forall_Exists_dec (fun m => m == 0) (fun m => Qeq_dec m 0) mus)
      as [Hall | Hex]; [| exact Hex].
    exfalso. apply Hnot. split; [lia | exact Hall].
Qed.

(** X9 on [mus = [0.0, 0.0]] and on [mus = [0.0]]. *)
Lemma init_fails_on_repeated_zeros_witness :
  histogramSparsity.init exact_engine [0; 0] 1 = Raise IndexError /\
  exists self, histogramSparsity.init exact_engine [0] 1 = Ok self.
Proof.
  split.
  - apply (proj1 (init_fails_on_repeated_zeros exact_engine [0; 0] 1)).
    split; [simpl; lia | repeat constructor].
  - apply (proj2 (init_fails_on_repeated_zeros exact_engine [0] 1)).
    intros [H _]. simpl in H. lia.
Defined.

Lemma GemanParam_positive (leapct : tomographicModels.t) (mus : list Q) (weight : Q)
    (self : histogramSparsity.t) :
  histogramSparsity.init leapct mus weight = Ok self ->
  0 < histogramSparsity.GemanParam self.
Proof.
  intros Hinit. destruct (init_Ok_spec _ _ _ _ Hinit) as (_ & _ & _ & _ & Hg).
  destruct Hg as [[_ ->] | (_ & _ & g0 & gs & Hgaps & ->)]; [reflexivity |].
  destruct (fold_py_min (g0 :: gs) g0) as (Hmem & _ & _).
  assert (Hin : In (fold_left py_min (g0 :: gs) g0) (adjacent_gaps (np_unique (with_zero mus)))).
  { rewrite Hgaps. destruct Hmem as [Hm | Hm]; [left; symmetry; exact Hm | exact Hm]. }
  destruct (gaps_are_differences _ (proj1 (np_unique_spec (with_zero mus))) _ Hin)
    as (a & b & _ & _ & Hab & Hm).
  rewrite Hm. nra.
Qed.

Lemma with_zero_id (l : list Q) : Qin 0 l -> with_zero l = l.
Proof.
  intros H. unfold with_zero. apply Qin_In in H. destruct H as [y [Hy H0]].
  assert (E : existsb (fun m => Qeq_bool m 0) l = true).
  { apply existsb_exists. exists y. split; [exact Hy |]. apply Qeq_bool_iff. lra. }
  now rewrite E.
Qed.

Lemma drop_repeats_id (x : Q) (l : list Q) :
  StronglySorted Qlt (x :: l) -> drop_repeats x l = l.
Proof.
  revert x. induction l as [| y l IH]; intros x Hs; [reflexivity |].
  inversion Hs as [| ? ? Hs' Hall]; subst. inversion Hall as [| ? ? Hxy _]; subst.
  cbn [drop_repeats].
  assert (E : Qeq_bool x y = false).
  { destruct (Qeq_bool x y) eqn:E; [| reflexivity]. apply Qeq_bool_iff in E. lra. }
  rewrite E, (IH y Hs'). reflexivity.
Qed.

Lemma np_unique_id (l : list Q) : StronglySorted Qlt l -> np_unique l = l.
Proof.
  intros Hs. unfold np_unique. rewrite (np_sort_strictly_sorted l Hs).
  destruct l as [| x l]; [reflexivity |]. now rewrite (drop_repeats_id x l Hs).
Qed.

(** X11.  Constructing again from the targets of a filter gives the filter
    back: the targets are a fixed point of the auto-insertion of 0, of the
    sorting and of the removal of repetitions, and [GemanParam] is derived
    from them alone. *)
Theorem init_from_own_targets (leapct : tomographicModels.t) (mus : list Q) (weight : Q)
    (self : histogramSparsity.t) :
  histogramSparsity.init leapct mus weight = Ok self ->
  histogramSparsity.init leapct (histogramSparsity.mus self) weight = Ok self.
Proof.
  intros Hinit. destruct (init_Ok_spec _ _ _ _ Hinit) as (Hmus & Hw & Hl & Hd & Hg).
  destruct (np_unique_spec (with_zero mus)) as [Hs Hmem].
  assert (Hz : Qin 0 (np_unique (with_zero mus)))
    by (apply Hmem, with_zero_Qin; right; reflexivity).
  assert (Hfix : np_unique (with_zero (np_unique (with_zero mus))) = np_unique (with_zero mus))
    by (rewrite (with_zero_id _ Hz); apply np_unique_id, Hs).
  pose proof (np_unique_length (with_zero mus)) as Hul.
  rewrite Hmus. destruct self as [l0 w0 d0 m0 G0]. cbn in Hmus, Hw, Hl, Hd, Hg. subst.
  destruct Hg as [[Hshort ->] | (Hlong & Htwo & g0 & gs & Hgaps & ->)].
  - rewrite init_fallback by (rewrite (with_zero_id _ Hz); lia). now rewrite Hfix.
  - destruct (init_gaps leapct (np_unique (with_zero mus)) weight) as (g0' & gs' & Hgaps' & Hi).
    + rewrite (with_zero_id _ Hz). lia.
    + rewrite Hfix. exact Htwo.
    + rewrite Hfix in Hgaps', Hi. rewrite Hgaps in Hgaps'. injection Hgaps' as <- <-.
      exact Hi.
Qed.

(** X11 for [mus = [2.0, 1.0, 2.0]]. *)
Lemma init_from_own_targets_witness :
  exists self,
    histogramSparsity.init exact_engine [2; 1; 2] 1 = Ok self /\
    histogramSparsity.mus self = [0; 1; 2] /\
    histogramSparsity.init exact_engine (histogramSparsity.mus self) 1 = Ok self.
Proof.
  eexists. split; [reflexivity |]. split; [reflexivity |].
  exact (init_from_own_targets exact_engine [2; 1; 2] 1 _ eq_refl).
Defined.

(** ** [histogramSparsity]: the kernels, the cost and the quadratic form *)

Lemma Geman0_bounds (self : histogramSparsity.t) (z : Q) :
  0 < histogramSparsity.GemanParam self ->
  0 <= histogramSparsity.Geman0 self z /\ histogramSparsity.Geman0 self z < 1.
Proof.
  intros HG. unfold histogramSparsity.Geman0.
  assert (Hzz : 0 <= z * z) by nra. split.
  - apply Qle_shift_div_l; lra.
  - apply Qlt_shift_div_r; lra.
Qed.

Lemma product_bounds (F : Q -> Q) (l : list Q) (acc : Q) :
  0 <= acc <= 1 -> Forall (fun mu => 0 <= F mu <= 1) l ->
  0 <= fold_left (fun c mu => c * F mu) l acc <= 1.
Proof.
  intros Hacc H. revert acc Hacc.
  induction H as [| mu l Hmu _ IH]; intros acc Hacc; simpl; [exact Hacc |].
  apply IH. nra.
Qed.

Lemma Qsum_bounds (l : list Q) :
  Forall (fun y => 0 <= y <= 1) l -> 0 <= Qsum l <= inject_Z (Z.of_nat (length l)).
Proof.
  induction 1 as [| y l Hy _ IH]; cbn [Qsum foldr length].
  - split; discriminate.
  - fold (Qsum l). rewrite Nat2Z.inj_succ. unfold Z.succ. rewrite inject_Z_plus.
    change (inject_Z 1) with 1. lra.
Qed.

(** X12.  The cost of a constructed filter is bounded: with a weight that
    is not negative it lies between 0 and [weight] times the number of
    voxels, each voxel contributing a product of factors that lie between
    0 and 1, both ends allowed. *)
Theorem histogramSparsity_cost_bounded (leapct : tomographicModels.t) (mus : list Q)
    (weight : Q) (self : histogramSparsity.t) (f : volume) :
  histogramSparsity.init leapct mus weight = Ok self -> 0 <= weight ->
  (forall z, 0 <= histogramSparsity.Geman0 self z /\ histogramSparsity.Geman0 self z <= 1) /\
  exists c, histogramSparsity.cost self f = Ok (Some c) /\
            0 <= c /\ c <= weight * inject_Z (Z.of_nat (length f)).
Proof.
  intros Hinit Hw. pose proof (GemanParam_positive _ _ _ _ Hinit) as HG.
  destruct (init_Ok_spec _ _ _ _ Hinit) as (_ & Hweight & _).
  split; [intros z; destruct (Geman0_bounds self z HG); split; lra |].
  eexists. split; [apply histogramSparsity_cost_voxelwise |].
  rewrite Hweight. unfold tomographicModels.sum. rewrite fold_left_Qplus.
  match goal with |- context [Qsum ?l] =>
    assert (Hb : 0 <= Qsum l <= inject_Z (Z.of_nat (length l))) end.
  { apply Qsum_bounds, List.Forall_map, List.Forall_forall. intros x _.
    apply (product_bounds (fun mu => histogramSparsity.Geman0 self (x - mu))); [lra |].
    apply List.Forall_forall. intros mu _.
    destruct (Geman0_bounds self (x - mu) HG). lra. }
  rewrite length_map in Hb. split; nra.
Qed.

(** X12 for [mus = [1.0, 2.0]], weight 3 and a volume of two voxels. *)
Lemma histogramSparsity_cost_bounded_witness :
  exists self c,
    histogramSparsity.init exact_engine [1; 2] 3 = Ok self /\
    histogramSparsity.cost self [3 # 2; 5] = Ok (Some c) /\
    0 <= c /\ c <= 3 * inject_Z (Z.of_nat 2).
Proof.
  eexists.
  destruct (proj2 (histogramSparsity_cost_bounded exact_engine [1; 2] 3 _ [3 # 2; 5]
                     eq_refl ltac:(discriminate))) as (c & Hc & H0 & H1).
  exists c. auto.
Defined.

Lemma sum_nonneg (l : list Q) : Forall (fun y => 0 <= y) l -> 0 <= tomographicModels.sum l.
Proof.
  intros H. unfold tomographicModels.sum. rewrite fold_left_Qplus.
  induction H as [| y l Hy _ IH]; cbn [Qsum foldr]; [lra |]. fold (Qsum l). lra.
Qed.

Lemma innerProd_nonneg (a d : volume) :
  Forall (fun y => 0 <= y) a -> 0 <= tomographicModels.innerProd a d d.
Proof.
  intros H. unfold tomographicModels.innerProd. apply sum_nonneg.
  unfold vmul. revert d. induction H as [| y a Hy _ IH]; intros [| x d]; cbn [zip_with];
    constructor; [nra | apply IH].
Qed.

(** X13.  The curvature of [histogramSparsity] is never negative: the
    weighting [Geman1_over_x] is [Geman1(x)/x] cleared of its division
    ([Geman1_over_x(x) * x = Geman1(x)]) and is positive for a constructed
    filter, so with a weight that is not negative [quadForm] returns a
    number that is at least 0 for every volume and direction. *)
Theorem histogramSparsity_quadForm_nonnegative (leapct : tomographicModels.t)
    (mus : list Q) (weight : Q) (self : histogramSparsity.t) (f d : volume) :
  histogramSparsity.init leapct mus weight = Ok self -> 0 <= weight ->
  (forall x, histogramSparsity.Geman1_over_x self x * x == histogramSparsity.Geman1 self x) /\
  (forall x, 0 < histogramSparsity.Geman1_over_x self x) /\
  exists q, histogramSparsity.quadForm self f d = Ok (Some q) /\ 0 <= q.
Proof.
  intros Hinit Hw. pose proof (GemanParam_positive _ _ _ _ Hinit) as HG.
  destruct (init_Ok_spec _ _ _ _ Hinit) as (Hmus & Hweight & _).
  assert (Hpos : forall x, 0 < histogramSparsity.Geman1_over_x self x).
  { intros x. unfold histogramSparsity.Geman1_over_x.
    assert (0 <= x * x) by nra. apply Qlt_shift_div_l; nra. }
  split; [| split; [exact Hpos |]].
  - intros x. unfold histogramSparsity.Geman1_over_x, histogramSparsity.Geman1, Qdiv. ring.
  - destruct (histogramSparsity.mus self) as [| mu0 rest] eqn:E.
    + exfalso. assert (Hz : Qin 0 (np_unique (with_zero mus)))
        by (apply np_unique_spec, with_zero_Qin; right; reflexivity).
      rewrite <- Hmus in Hz. now apply Qin_nil in Hz.
    + eexists. split; [apply (histogramSparsity_quadForm_voxelwise self f d mu0 rest E) |].
      rewrite Hweight.
      assert (0 <= tomographicModels.innerProd
                     (map (histogramSparsity.Geman1_over_x self)
                        (map (fun x => fold_left (fun m mu => Qmin m (Qabs (m - mu))) rest
                                         (Qabs (x - mu0))) f)) d d).
      { apply innerProd_nonneg, List.Forall_map, List.Forall_forall.
        intros y _. apply Qlt_le_weak, Hpos. }
      nra.
Qed.

(** X13 for [mus = [1.0, 2.0]]. *)
Lemma histogramSparsity_quadForm_nonnegative_witness :
  exists self q,
    histogramSparsity.init exact_engine [1; 2] 1 = Ok self /\
    histogramSparsity.quadForm self [9 # 4; -3] [1; -2] = Ok (Some q) /\ 0 <= q.
Proof.
  eexists.
  destruct (proj2 (proj2 (histogramSparsity_quadForm_nonnegative exact_engine [1; 2] 1 _
                            [9 # 4; -3] [1; -2] eq_refl ltac:(discriminate))))
    as (q & Hq & H0).
  exists q. auto.
Defined.

(** ** [histogramSparsity.gradient] *)

Lemma vmul_map (a b : Q -> Q) (f : volume) :
  vmul (map a f) (map b f) = map (fun x => a x * b x) f.
Proof.
  unfold vmul. induction f as [| x f IH]; [reflexivity |].
  cbn [map zip_with]. now rewrite IH.
Qed.

Lemma vadd_map (a b : Q -> Q) (f : volume) :
  vadd (map a f) (map b f) = map (fun x => a x + b x) f.
Proof.
  unfold vadd. induction f as [| x f IH]; [reflexivity |].
  cbn [map zip_with]. now rewrite IH.
Qed.

Lemma gradient_inner_voxelwise (self : histogramSparsity.t) (f : volume) (l_1 : nat)
    (ls : list nat) (a : Q -> Q) :
  fold_left (fun curTerm l_2 =>
               if (l_1 =? l_2)%nat then
                 vmul curTerm (map (histogramSparsity.Geman1 self)
                                 (vshift f (nth l_1 (histogramSparsity.mus self) 0)))
               else
                 vmul curTerm (map (histogramSparsity.Geman0 self)
                                 (vshift f (nth l_2 (histogramSparsity.mus self) 0))))
            ls (map a f)
  = map (fun x =>
           fold_left (fun c l_2 =>
                        if (l_1 =? l_2)%nat
                        then c * histogramSparsity.Geman1 self
                                   (x - nth l_1 (histogramSparsity.mus self) 0)
                        else c * histogramSparsity.Geman0 self
                                   (x - nth l_2 (histogramSparsity.mus self) 0))
                     ls (a x)) f.
Proof.
  revert a. induction ls as [| l_2 ls IH]; intros a; cbn [fold_left]; [reflexivity |].
  unfold vshift. rewrite !map_map.
  destruct (l_1 =? l_2)%nat eqn:E.
  - rewrite vmul_map.
    rewrite <- (IH (fun x => a x * histogramSparsity.Geman1 self
                                 (x - nth l_1 (histogramSparsity.mus self) 0))).
    unfold vshift. now rewrite !map_map.
  - rewrite vmul_map.
    rewrite <- (IH (fun x => a x * histogramSparsity.Geman0 self
                                 (x - nth l_2 (histogramSparsity.mus self) 0))).
    unfold vshift. now rewrite !map_map.
Qed.

Lemma gradient_outer_voxelwise (T : nat -> Q -> Q) (w : Q) (f : volume) (ls : list nat)
    (s : Q -> Q) :
  fold_left (fun Sp l_1 => vscale_r (vadd Sp (map (T l_1) f)) w) ls (map s f)
  = map (fun x => fold_left (fun acc l_1 => (acc + T l_1 x) * w) ls (s x)) f.
Proof.
  revert s. induction ls as [| l_1 ls IH]; intros s; cbn [fold_left]; [reflexivity |].
  rewrite vadd_map. unfold vscale_r. rewrite map_map.
  apply (IH (fun x => (s x + T l_1 x) * w)).
Qed.

Lemma horner_weights (T : nat -> Q) (w : Q) (m k : nat) (acc : Q) :
  fold_left (fun s l => (s + T l) * w) (seq k m) acc
  == acc * Qpow_nat w m + Qsum (map (fun l => T l * Qpow_nat w (k + m - l)) (seq k m)).
Proof.
  revert k acc. induction m as [| m IH]; intros k acc; cbn [seq fold_left map Qsum foldr].
  - cbn [Qpow_nat]. ring.
  - fold (Qsum (map (fun l => T l * Qpow_nat w (k + S m - l)) (seq (S k) m))).
    rewrite IH.
    replace (k + S m - k)%nat with (S m) by lia. cbn [Qpow_nat].
    rewrite (map_ext_in (fun l => T l * Qpow_nat w (S k + m - l))
                        (fun l => T l * Qpow_nat w (k + S m - l))).
    + ring.
    + intros l _. now replace (S k + m - l)%nat with (k + S m - l)%nat by lia.
Qed.

Lemma fold_left_pointwise (A B : Type) (F G : A -> B -> A) (l : list B) (a : A) :
  (forall x y, F x y = G x y) -> fold_left F l a = fold_left G l a.
Proof.
  intros H. revert a. induction l as [| y l IH]; intros a; cbn [fold_left]; [reflexivity |].
  now rewrite H, IH.
Qed.

(** X14.  The weights in the gradient of [histogramSparsity]: the
    accumulator is multiplied by [weight] inside the loop over the targets,
    so with [n] targets the term of target number [l] (counted from 0)
    enters the gradient with the factor [weight^(n - l)], not [weight]. *)
Theorem histogramSparsity_gradient_weights (self : histogramSparsity.t) (f : volume) :
  exists G,
    histogramSparsity.gradient self f = Ok (Some G) /\
    length G = length f /\
    veq G (map (fun x =>
                  Qsum (map (fun l =>
                               leave_one_out_term self l x
                               * Qpow_nat (histogramSparsity.weight self)
                                   (length (histogramSparsity.mus self) - l))
                            (seq 0 (length (histogramSparsity.mus self))))) f).
Proof.
  eexists. split; [| split].
  - unfold histogramSparsity.gradient, tomographicModels.copyData, vfill.
    rewrite (fold_left_pointwise _ _ _
               (fun Sp l_1 => vscale_r (vadd Sp (map (leave_one_out_term self l_1) f))
                                (histogramSparsity.weight self))).
    + rewrite gradient_outer_voxelwise. reflexivity.
    + intros Sp l_1. cbv zeta. rewrite gradient_inner_voxelwise. reflexivity.
  - apply length_map.
  - unfold veq. induction f as [| x f IH]; cbn [map]; constructor; [| exact IH].
    rewrite horner_weights. cbn [Nat.add]. ring.
Qed.

(** ** [histogramSparsity]: the targets as a set *)

Lemma sorted_unique (l1 l2 : list Q) :
  StronglySorted Qlt l1 -> StronglySorted Qlt l2 ->
  (forall x, Qin x l1 <-> Qin x l2) -> veq l1 l2.
Proof.
  intros H1. revert l2. induction H1 as [| x l1 Hs1 IH Hx]; intros l2 H2 Hmem.
  - destruct l2 as [| y l2]; [constructor |].
    exfalso. apply (Qin_nil y), Hmem, Qin_cons. left. reflexivity.
  - destruct H2 as [| y l2 Hs2 Hy].
    { exfalso. apply (Qin_nil x), Hmem, Qin_cons. left. reflexivity. }
    assert (Hgt1 : forall z, Qin z l1 -> x < z).
    { intros z Hz. apply Qin_In in Hz. destruct Hz as [u [Hu Hzu]].
      rewrite List.Forall_forall in Hx. specialize (Hx u Hu). lra. }
    assert (Hgt2 : forall z, Qin z l2 -> y < z).
    { intros z Hz. apply Qin_In in Hz. destruct Hz as [u [Hu Hzu]].
      rewrite List.Forall_forall in Hy. specialize (Hy u Hu). lra. }
    assert (Hxy : x == y).
    { assert (Hx2 : Qin x (y :: l2)) by (apply Hmem, Qin_cons; left; reflexivity).
      assert (Hy1 : Qin y (x :: l1)) by (apply Hmem, Qin_cons; left; reflexivity).
      apply Qin_cons in Hx2, Hy1.
      destruct Hx2 as [E | Hx2]; [exact E |]. destruct Hy1 as [E | Hy1]; [lra |].
      specialize (Hgt1 y Hy1). specialize (Hgt2 x Hx2). lra. }
    constructor; [exact Hxy |]. apply IH; [exact Hs2 |].
    intros z. split; intros Hz.
    + assert (Hz2 : Qin z (y :: l2)) by (apply Hmem, Qin_cons; right; exact Hz).
      apply Qin_cons in Hz2. destruct Hz2 as [E | Hz2]; [| exact Hz2].
      specialize (Hgt1 z Hz). lra.
    + assert (Hz1 : Qin z (x :: l1)) by (apply Hmem, Qin_cons; right; exact Hz).
      apply Qin_cons in Hz1. destruct Hz1 as [E | Hz1]; [| exact Hz1].
      specialize (Hgt2 z Hz). lra.
Qed.

Lemma py_min_Qeq (a a' b b' : Q) : a == a' -> b == b' -> py_min a b == py_min a' b'.
Proof.
  intros Ha Hb.
  destruct (py_min_cases a b) as [[-> H] | [-> H]];
    destruct (py_min_cases a' b') as [[-> H'] | [-> H']]; lra.
Qed.

Lemma fold_py_min_Qeq (gs gs' : list Q) (acc acc' : Q) :
  veq gs gs' -> acc == acc' -> fold_left py_min gs acc == fold_left py_min gs' acc'.
Proof.
  intros H. revert acc acc'. induction H as [| g g' gs gs' Hg _ IH]; intros acc acc' Hacc.
  - exact Hacc.
  - cbn [fold_left]. apply IH, py_min_Qeq; assumption.
Qed.

Lemma adjacent_gaps_veq (l l' : list Q) : veq l l' -> veq (adjacent_gaps l) (adjacent_gaps l').
Proof.
  intros H. induction H as [| x x' l l' Hx H IH]; [constructor |].
  destruct H as [| y y' l l' Hy H]; [constructor |].
  rewrite !adjacent_gaps_cons. constructor; [now rewrite Hx, Hy | exact IH].
Qed.

(** X15.  Only the set of values in [mus] matters: two lists with the same
    values, in whatever order and however often repeated, give the same
    targets and the same [GemanParam] whenever both constructions
    succeed. *)
Theorem targets_depend_on_values (leapct : tomographicModels.t) (mus1 mus2 : list Q)
    (w1 w2 : Q) (s1 s2 : histogramSparsity.t) :
  (forall x, Qin x mus1 <-> Qin x mus2) ->
  histogramSparsity.init leapct mus1 w1 = Ok s1 ->
  histogramSparsity.init leapct mus2 w2 = Ok s2 ->
  veq (histogramSparsity.mus s1) (histogramSparsity.mus s2) /\
  histogramSparsity.GemanParam s1 == histogramSparsity.GemanParam s2.
Proof.
  intros Hmem H1 H2.
  destruct (init_Ok_spec _ _ _ _ H1) as (Hm1 & _ & _ & _ & Hg1).
  destruct (init_Ok_spec _ _ _ _ H2) as (Hm2 & _ & _ & _ & Hg2).
  destruct (np_unique_spec (with_zero mus1)) as [Hs1 Hu1].
  destruct (np_unique_spec (with_zero mus2)) as [Hs2 Hu2].
  assert (Hveq : veq (np_unique (with_zero mus1)) (np_unique (with_zero mus2))).
  { apply sorted_unique; [exact Hs1 | exact Hs2 |].
    intros x. rewrite Hu1, Hu2, !with_zero_Qin, Hmem. reflexivity. }
  pose proof (veq_length _ _ Hveq) as Hlen.
  pose proof (np_unique_length (with_zero mus1)) as Hul1.
  pose proof (np_unique_length (with_zero mus2)) as Hul2.
  rewrite Hm1, Hm2. split; [exact Hveq |].
  destruct Hg1 as [[Hshort1 ->] | (Hlong1 & Htwo1 & g1 & gs1 & Hgaps1 & ->)];
    destruct Hg2 as [[Hshort2 ->] | (Hlong2 & Htwo2 & g2 & gs2 & Hgaps2 & ->)];
    [reflexivity | lia | lia |].
  pose proof (adjacent_gaps_veq _ _ Hveq) as Hgv. rewrite Hgaps1, Hgaps2 in Hgv.
  assert (Hhead : g1 == g2) by (inversion Hgv; assumption).
  rewrite (fold_py_min_Qeq (g1 :: gs1) (g2 :: gs2) g1 g2 Hgv Hhead). reflexivity.
Qed.

(** X15 for [[1.0, 2.0]] and [[2.0, 1.0, 1.0]]. *)
Lemma targets_depend_on_values_witness :
  exists s1 s2,
    histogramSparsity.init exact_engine [1; 2] 1 = Ok s1 /\
    histogramSparsity.init exact_engine [2; 1; 1] 5 = Ok s2 /\
    veq (histogramSparsity.mus s1) (histogramSparsity.mus s2) /\
    histogramSparsity.GemanParam s1 == histogramSparsity.GemanParam s2.
Proof.
  eexists. eexists. split; [reflexivity |]. split; [reflexivity |].
  apply (targets_depend_on_values exact_engine [1; 2] [2; 1; 1] 1 5 _ _);
    [| reflexivity | reflexivity].
  intros x. rewrite !Qin_cons. pose proof (Qin_nil x). tauto.
Defined.

(** ** [LpNorm]: shapes and signs *)

Lemma pow_length (leapct : tomographicModels.t) (a t : volume) (e : Q) :
  tomographicModels.pow leapct a e = Ok t -> length t = length a.
Proof.
  unfold tomographicModels.pow. revert t.
  induction a as [| x a IH]; intros t H; cbn [mapM] in H.
  - injection H as <-. reflexivity.
  - destruct (tomographicModels.power leapct x e); [| discriminate]. cbn [rbind] in H.
    destruct (mapM _ a) as [t' |]; [| discriminate]. cbn [rbind] in H.
    injection H as <-. simpl. now rewrite (IH t' eq_refl).
Qed.

Lemma pow_nonneg (leapct : tomographicModels.t) (a t : volume) (e : Q) :
  (forall x y, 0 <= x -> tomographicModels.power leapct x e = Some y -> 0 <= y) ->
  tomographicModels.pow leapct (tomographicModels.abs a) e = Ok t ->
  Forall (fun y => 0 <= y) t.
Proof.
  intros Hp. unfold tomographicModels.pow, tomographicModels.abs. revert t.
  induction a as [| x a IH]; intros t H; cbn [map mapM] in H.
  - injection H as <-. constructor.
  - destruct (tomographicModels.power leapct (Qabs x) e) as [y |] eqn:E; [| discriminate].
    cbn [rbind] in H. destruct (mapM _ (map Qabs a)) as [t' |]; [| discriminate].
    cbn [rbind] in H. injection H as <-.
    constructor; [apply (Hp (Qabs x) y (Qabs_nonneg x) E) | apply IH; reflexivity].
Qed.

Lemma mask_set_nonneg (t : volume) (ind : list bool) :
  Forall (fun y => 0 <= y) t -> Forall (fun y => 0 <= y) (mask_set t ind 0).
Proof.
  unfold mask_set. intros H. revert ind.
  induction H as [| y t Hy _ IH]; intros [| b ind]; cbn [zip_with]; constructor;
    [destruct b; lra | apply IH].
Qed.

(** X16.  The sign and the shape of [LpNorm]: with a weight that is not
    negative and an engine whose powers of nonnegative bases are not
    negative, the cost and the quadratic form of a constructed filter are at
    least 0 (the order is clamped to [p >= 0]); and the gradient, when it is
    finite, has the shape of the volume, the prior, if there is one, having
    that shape too. *)
Theorem LpNorm_signs_and_shape (leapct : tomographicModels.t) (p weight : Q)
    (f_0 : option volume) (f d : volume) :
  (forall x e y, 0 <= x -> tomographicModels.power leapct x e = Some y -> 0 <= y) ->
  0 <= weight ->
  (forall f0, f_0 = Some f0 -> length f0 = length f) ->
  (forall c, LpNorm.cost (LpNorm.init leapct p weight f_0) f = Ok (Some c) -> 0 <= c) /\
  (forall q, LpNorm.quadForm (LpNorm.init leapct p weight f_0) f d = Ok (Some q) -> 0 <= q) /\
  (forall g, LpNorm.gradient (LpNorm.init leapct p weight f_0) f = Ok (Some g) ->
     length g = length f).
Proof.
  intros Hpow Hw Hshape.
  assert (Hp : 0 <= py_max 0 p) by (rewrite py_max_Qmax; apply Q.le_max_l).
  unfold LpNorm.cost, LpNorm.quadForm, LpNorm.gradient, LpNorm.init,
    tomographicModels.copyData.
  cbn [LpNorm.f_0 LpNorm.p LpNorm.weight LpNorm.leapct].
  split; [| split].
  - intros c H.
    assert (Hgen : forall a, (t <-- tomographicModels.pow leapct (tomographicModels.abs a)
                                      (py_max 0 p) ;
                              Ok (Some (weight * tomographicModels.sum t))) = Ok (Some c) ->
                             0 <= c).
    { intros a Ha.
      destruct (tomographicModels.pow leapct (tomographicModels.abs a) (py_max 0 p))
        as [t |] eqn:E; [| discriminate].
      cbn [rbind] in Ha. injection Ha as <-.
      pose proof (sum_nonneg t (pow_nonneg leapct a t _ (fun x y => Hpow x _ y) E)). nra. }
    destruct f_0; exact (Hgen _ H).
  - intros q H.
    assert (Hgen : forall a ind,
              (t <-- tomographicModels.pow leapct (tomographicModels.abs a) (py_max 0 p - 2) ;
               Ok (Some (weight * py_max 0 p
                         * tomographicModels.innerProd (mask_set t ind 0) d d)))
              = Ok (Some q) -> 0 <= q).
    { intros a ind Ha.
      destruct (tomographicModels.pow leapct (tomographicModels.abs a) (py_max 0 p - 2))
        as [t |] eqn:E; [| discriminate].
      cbn [rbind] in Ha. injection Ha as <-.
      pose proof (innerProd_nonneg _ d
                    (mask_set_nonneg t ind
                       (pow_nonneg leapct a t _ (fun x y => Hpow x _ y) E))).
      apply Qmult_le_0_compat; [apply Qmult_le_0_compat |]; assumption. }
    destruct f_0; exact (Hgen _ _ H).
  - intros g H.
    destruct (tomographicModels.pow leapct _ (py_max 0 p - 1)) as [t |] eqn:E;
      [| discriminate].
    cbn [rbind] in H. injection H as <-.
    apply pow_length in E. unfold tomographicModels.abs in E. rewrite length_map in E.
    unfold vmul, vscale, tomographicModels.sign.
    rewrite length_zip_with, !length_map, E.
    destruct f_0 as [f0 |]; [| lia].
    unfold vsub. rewrite length_zip_with, (Hshape f0 eq_refl). lia.
Qed.

Lemma exact_engine_power_nonneg (x e y : Q) :
  0 <= x -> tomographicModels.power exact_engine x e = Some y -> 0 <= y.
Proof.
  intros Hx. simpl. unfold Qpow_int.
  destruct (Qden (Qred e) =? 1)%positive; [| discriminate].
  destruct (Qeq_bool x 0 && (Qnum (Qred e) <? 0)%Z); [discriminate |].
  intros H. injection H as <-. rewrite Qred_correct. apply Qpower_0_le, Hx.
Qed.

(** X16 on the exact engine, with a prior. *)
Lemma LpNorm_signs_and_shape_witness :
  (forall c, LpNorm.cost sample_LpNorm_prior [4; 5; -1] = Ok (Some c) -> 0 <= c) /\
  (forall q, LpNorm.quadForm sample_LpNorm_prior [4; 5; -1] [1; 1; 1] = Ok (Some q) ->
     0 <= q) /\
  (forall g, LpNorm.gradient sample_LpNorm_prior [4; 5; -1] = Ok (Some g) ->
     length g = 3%nat).
Proof.
  apply (LpNorm_signs_and_shape exact_engine 1 1 (Some [1; 1; 1]) [4; 5; -1] [1; 1; 1]
           exact_engine_power_nonneg ltac:(discriminate)).
  intros f0 H. injection H as <-. reflexivity.
Defined.
